(** * pypaint: the pointer-event state machine and the line rasterizer

    A shallow embedding of [code.py] (Paint for PyPortal, PyBadge, PyGamer):
    the two pollers, [Paint._plot], [Paint._goto], the three handlers, the
    edge-detection properties, [Paint._update] and the body of [Paint.run].

    Python integers are unbounded, so coordinates are [Z].  The error
    accumulator of [_goto] is a Python float initialised with [dx / 2]:
    it is modelled as an IEEE 754 binary64 number, with round-to-nearest-even
    on every operation and the [OverflowError] that the int-to-float
    conversions raise.  For segments shorter than [2 ^ 52] every value it
    takes is a half-integer that the format holds exactly.

    Calls on the external collaborators (the logger, [time.sleep], the
    poller's [poke], the item assignment on the [displayio.Bitmap]) are
    recorded in an output trace, together with a marker for each handler
    entry. *)

From Stdlib Require Import ZArith Lia List Bool String Finite.
From stdpp Require Import gmap list.

Local Open Scope Z_scope.

(** ** Data model *)

(** A location is the [(x, y)] tuple returned by a poller. *)
Abbreviation pos := (Z * Z)%type.

(** The result of [poll()]: the pair [(contact, location-or-None)]. *)
Abbreviation Sample := (bool * option pos)%type.

(** Python exceptions that the modelled code can raise. *)
Inductive exn : Type :=
| IndexError
| TypeError
| OverflowError
| ZeroDivisionError.

(** Values handed to the logger. *)
Inductive value : Type :=
| VBool (b : bool)
| VInt (z : Z)
| VLoc (l : option pos).

(** The observable trace: calls on external collaborators and handler
    entries. *)
Inductive event : Type :=
| Debug (fmt : string) (args : list value)      (* self._logger.debug(...) *)
| Sleep (ms : Z)                                (* time.sleep(ms / 1000)   *)
| Poke                                          (* self._poller.poke()     *)
| SetPixel (x y c : Z)                          (* self._fg_bitmap[x, y] = c *)
| HandlePress (location : option pos)           (* entry of _handle_press  *)
| HandleRelease (location : option pos)         (* entry of _handle_release *)
| HandleMotion (start end_ : option pos).       (* entry of _handle_motion *)

(** Modelled from the spec: [displayio.Bitmap] is an external collaborator
    (the Framebuffer of the spec): a 2D grid of palette indices of
    dimensions width x height; a cell never written reads as 0; "writes
    outside this range are rejected, not clamped" -- the item assignment
    raises [IndexError]. *)
Record Bitmap : Type := mkBitmap {
  width : Z;
  height : Z;
  cells : gmap (Z * Z) Z
}.

Definition Bitmap_new (w h : Z) : Bitmap := mkBitmap w h ∅.

Definition in_bounds (b : Bitmap) (x y : Z) : bool :=
  (0 <=? x) && (x <? width b) && (0 <=? y) && (y <? height b).

Definition Bitmap_getitem (b : Bitmap) (x y : Z) : Z :=
  default 0 (cells b !! (x, y)).

Definition Bitmap_setitem (b : Bitmap) (x y c : Z) : exn + Bitmap :=
  if in_bounds b x y
  then inr (mkBitmap (width b) (height b) (<[(x, y) := c]> (cells b)))
  else inl IndexError.

(** The fields of a [Paint] object that the core reads or writes. *)
Record Paint : Type := mkPaint {
  _w : Z;
  _h : Z;
  _x : Z;
  _y : Z;
  _fg_bitmap : Bitmap;
  _pressed : bool;
  _last_pressed : bool;
  _location : option pos;
  _last_location : option pos;
  _pencolor : Z
}.

(** [Paint.__init__] for a display of the given size. *)
Definition Paint_init (w h : Z) : Paint :=
  {| _w := w; _h := h; _x := w / 2; _y := h / 2;
     _fg_bitmap := Bitmap_new w h;
     _pressed := false; _last_pressed := false;
     _location := None; _last_location := None;
     _pencolor := 7 |}.

Definition set_fg_bitmap (b : Bitmap) (p : Paint) : Paint :=
  {| _w := _w p; _h := _h p; _x := _x p; _y := _y p;
     _fg_bitmap := b;
     _pressed := _pressed p; _last_pressed := _last_pressed p;
     _location := _location p; _last_location := _last_location p;
     _pencolor := _pencolor p |}.

Definition set_xy (x y : Z) (p : Paint) : Paint :=
  {| _w := _w p; _h := _h p; _x := x; _y := y;
     _fg_bitmap := _fg_bitmap p;
     _pressed := _pressed p; _last_pressed := _last_pressed p;
     _location := _location p; _last_location := _last_location p;
     _pencolor := _pencolor p |}.

Definition set_input (pr lpr : bool) (loc lloc : option pos) (p : Paint) : Paint :=
  {| _w := _w p; _h := _h p; _x := _x p; _y := _y p;
     _fg_bitmap := _fg_bitmap p;
     _pressed := pr; _last_pressed := lpr;
     _location := loc; _last_location := lloc;
     _pencolor := _pencolor p |}.

(** ** The effect monad: state, exceptions, output trace, fuel *)

Inductive result (A : Type) : Type :=
| Ok (a : A) (p : Paint)        (* normal completion *)
| Exc (e : exn) (p : Paint)     (* an uncaught exception, with the state at the raise *)
| OutOfFuel.                    (* the loop bound of the model was exhausted *)

Arguments Ok {A} a p.
Arguments Exc {A} e p.
Arguments OutOfFuel {A}.

Definition M (A : Type) : Type := Paint -> list event * result A.

Definition ret {A} (a : A) : M A := fun p => ([], Ok a p).

Definition bind {A B} (m : M A) (f : A -> M B) : M B :=
  fun p =>
    match m p with
    | (t, Ok a p') => let '(t', r) := f a p' in (t ++ t', r)
    | (t, Exc e p') => (t, Exc e p')
    | (t, OutOfFuel) => (t, OutOfFuel)
    end.

Definition emit (e : event) : M unit := fun p => ([e], Ok tt p).
Definition raise {A} (e : exn) : M A := fun p => ([], Exc e p).
Definition out_of_fuel {A} : M A := fun _ => ([], OutOfFuel).
Definition get {A} (f : Paint -> A) : M A := fun p => ([], Ok (f p) p).
Definition modify (f : Paint -> Paint) : M unit := fun p => ([], Ok tt (f p)).

(** [try: m except e: pass] *)
Definition try_pass (e : exn) (m : M unit) : M unit :=
  fun p =>
    match m p with
    | (t, Exc e' p') =>
        if match e, e' with
           | IndexError, IndexError | TypeError, TypeError
           | OverflowError, OverflowError
           | ZeroDivisionError, ZeroDivisionError => true
           | _, _ => false
           end
        then (t, Ok tt p') else (t, Exc e' p')
    | r => r
    end.

Declare Scope paint_scope.
Delimit Scope paint_scope with paint.
Notation "x <- m ;; k" := (bind m (fun x => k))
  (at level 100, m at next level, right associativity) : paint_scope.
Notation "m ;; k" := (bind m (fun _ => k))
  (at level 100, right associativity) : paint_scope.
Local Open Scope paint_scope.

(** [t[i]] on a location-or-None: subscripting [None] raises [TypeError]. *)
Definition getitem (t : option pos) (i : nat) : M Z :=
  match t, i with
  | Some (x, _), O => ret x
  | Some (_, y), S O => ret y
  | Some _, _ => raise IndexError
  | None, _ => raise TypeError
  end.

(** ** The pollers *)

(** [TouchscreenPoller]: the only thing [poll] reads is the touch screen's
    [touch_point] property, the current touch location or [None]. *)
Record TouchscreenPoller : Type := {
  touch_point : option pos
}.

Definition TouchscreenPoller_poll (self : TouchscreenPoller) : Sample :=
  let p := touch_point self in
  (bool_decide (p ≠ None), p).

(** [CursorPoller] after [self._cursor.update()]: the debounced button
    state, the cursor position and the two offsets. *)
Record CursorPoller : Type := {
  held : bool;
  mouse_cursor_x : Z;
  mouse_cursor_y : Z;
  _x_offset : Z;
  _y_offset : Z
}.

Definition CursorPoller_poll (self : CursorPoller) : Sample :=
  let location := None in
  let button := held self in
  let location :=
    if button
    then Some (mouse_cursor_x self + _x_offset self,
               mouse_cursor_y self + _y_offset self)
    else location in
  (button, location).

(** The common interface of the two pollers. *)
Class Poller (T : Type) : Type := {
  poll : T -> Sample
}.

#[export] Instance TouchscreenPoller_Poller : Poller TouchscreenPoller :=
  {| poll := TouchscreenPoller_poll |}.
#[export] Instance CursorPoller_Poller : Poller CursorPoller :=
  {| poll := CursorPoller_poll |}.

(** ** Paint._plot *)

Definition _plot (x y c : Z) : M unit :=
  try_pass IndexError
    (emit (SetPixel x y c) ;;
     b <- get _fg_bitmap ;;
     match Bitmap_setitem b x y c with
     | inr b' => modify (set_fg_bitmap b')
     | inl e => raise e
     end).

(** ** Python floats *)

(** A Python float is an IEEE 754 binary64 number.  Every finite one is an
    integer multiple of [2 ^ -1074] with at most 53 significant bits and a
    magnitude below [2 ^ 1024]: [Fin n] stands for [n * 2 ^ -1074].  The
    sign of a zero is not kept: the code only compares [err] with [0]. *)
Inductive float : Type :=
| Fin (n : Z)
| PosInf
| NegInf
| NaN.

(** Rounding to 53 significant bits, to nearest, ties to even: with [k] the
    number of bits to drop, [q] the kept bits and [r] the dropped ones. *)
Definition round53 (n : Z) : Z :=
  let a := Z.abs n in
  let k := Z.log2 a - 52 in
  if k <=? 0 then n
  else
    let q := Z.shiftr a k in
    let r := Z.land a (Z.ones k) in
    let half := 2 ^ (k - 1) in
    let q' := if (half <? r) || ((r =? half) && Z.odd q) then q + 1 else q in
    Z.sgn n * Z.shiftl q' k.

(** [2 ^ 1024], in units of [2 ^ -1074]: what rounds to it or beyond is not
    a finite float. *)
Definition float_max : Z := 2 ^ 2098.

(** Float arithmetic overflows to an infinity. *)
Definition fin_or_inf (n : Z) : float :=
  if float_max <=? Z.abs n then (if n <? 0 then NegInf else PosInf) else Fin n.

(** The conversion of an int operand: correctly rounded, and
    [OverflowError: int too large to convert to float] beyond the range. *)
Definition float_of_int (z : Z) : exn + float :=
  let n := round53 (z * 2 ^ 1074) in
  if float_max <=? Z.abs n then inl OverflowError else inr (Fin n).

(** [a / b] on two ints: the correctly rounded quotient, with
    [ZeroDivisionError] for [b = 0] and [OverflowError: integer division
    result too large for a float]. *)
Definition int_truediv (a b : Z) : exn + float :=
  if b =? 0 then inl ZeroDivisionError
  else
    let N := Z.abs a * 2 ^ 1074 in
    let d := Z.abs b in
    let q := N / d in
    let r := N mod d in
    let m :=
      if r =? 0 then round53 q
      else if q <? 2 ^ 53
           then (if (d <? 2 * r) || ((2 * r =? d) && Z.odd q) then q + 1 else q)
           else round53 (2 * q + 1) / 2 in
    if float_max <=? m then inl OverflowError
    else inr (Fin (Z.sgn a * Z.sgn b * m)).

Definition float_neg (a : float) : float :=
  match a with
  | Fin n => Fin (- n)
  | PosInf => NegInf
  | NegInf => PosInf
  | NaN => NaN
  end.

Definition float_add (a b : float) : float :=
  match a, b with
  | Fin n, Fin m => fin_or_inf (round53 (n + m))
  | NaN, _ | _, NaN => NaN
  | PosInf, NegInf | NegInf, PosInf => NaN
  | PosInf, _ | _, PosInf => PosInf
  | NegInf, _ | _, NegInf => NegInf
  end.

Definition float_sub (a b : float) : float := float_add a (float_neg b).

(** [a < 0] for a float [a] and the int [0]. *)
Definition float_lt_0 (a : float) : bool :=
  match a with
  | Fin n => n <? 0
  | NegInf => true
  | PosInf | NaN => false
  end.

(** A result or the exception raised instead. *)
Definition lift {A} (r : exn + A) : M A :=
  match r with
  | inl e => raise e
  | inr a => ret a
  end.

(** [a - z] and [a + z] for a float [a] and an int [z]: the int is converted
    first. *)
Definition float_sub_int (a : float) (z : Z) : M float :=
  b <- lift (float_of_int z) ;; ret (float_sub a b).

Definition float_add_int (a : float) (z : Z) : M float :=
  b <- lift (float_of_int z) ;; ret (float_add a b).

(** ** Paint._goto *)

(** The [while] loop of [_goto]; [x0], [y0] and [err] are the variables the
    loop updates, the others are fixed before it. *)
Fixpoint _goto_loop (fuel : nat) (steep rev : bool) (dx dy ystep x1 : Z)
    (x0 y0 : Z) (err : float) : M unit :=
  match fuel with
  | O => out_of_fuel
  | S fuel' =>
      if (negb rev && (x0 <=? x1)) || (rev && (x1 <=? x0)) then
        (if steep then
           c <- get _pencolor ;;
           try_pass IndexError (_plot y0 x0 c) ;;
           modify (set_xy y0 x0) ;;
           emit (Sleep 3)
         else
           c <- get _pencolor ;;
           try_pass IndexError (_plot x0 y0 c) ;;
           modify (set_xy x0 y0) ;;
           emit (Sleep 3)) ;;
        err <- float_sub_int err dy ;;
        ye <- (if float_lt_0 err
               then err <- float_add_int err dx ;; ret (y0 + ystep, err)
               else ret (y0, err)) ;;
        let x0 := if rev then x0 - 1 else x0 + 1 in
        _goto_loop fuel' steep rev dx dy ystep x1 x0 (fst ye) (snd ye)
      else ret tt
  end.

Definition _goto (fuel : nat) (start end_ : option pos) : M unit :=
  x0 <- getitem start 0 ;;
  y0 <- getitem start 1 ;;
  x1 <- getitem end_ 0 ;;
  y1 <- getitem end_ 1 ;;
  emit (Debug "* GoTo from (%d, %d) to (%d, %d)" [VInt x0; VInt y0; VInt x1; VInt y1]) ;;
  let steep := Z.abs (y1 - y0) >? Z.abs (x1 - x0) in
  let rev := false in
  let dx := x1 - x0 in
  let '(x0, y0, x1, y1) :=
    if steep then (y0, x0, y1, x1) else (x0, y0, x1, y1) in
  let dx := if steep then x1 - x0 else dx in
  let '(rev, dx) := if x0 >? x1 then (true, x0 - x1) else (rev, dx) in
  let dy := Z.abs (y1 - y0) in
  err <- lift (int_truediv dx 2) ;;
  let ystep := -1 in
  let ystep := if y0 <? y1 then 1 else ystep in
  _goto_loop fuel steep rev dx dy ystep x1 x0 y0 err.

(** The pixels a trace emits: the coordinates of its [SetPixel] events. *)
Definition pixels (t : list event) : list pos :=
  omap (fun e => match e with SetPixel x y _ => Some (x, y) | _ => None end) t.

(** ** The handlers *)

Definition _handle_motion (fuel : nat) (start end_ : option pos) : M unit :=
  emit (HandleMotion start end_) ;;
  s0 <- getitem start 0 ;;
  s1 <- getitem start 1 ;;
  e0 <- getitem end_ 0 ;;
  e1 <- getitem end_ 1 ;;
  emit (Debug "Moved: (%d, %d) -> (%d, %d)" [VInt s0; VInt s1; VInt e0; VInt e1]) ;;
  _goto fuel start end_.

Definition _handle_press (location : option pos) : M unit :=
  emit (HandlePress location) ;;
  emit (Debug "Pressed!" []) ;;
  l0 <- getitem location 0 ;;
  l1 <- getitem location 1 ;;
  c <- get _pencolor ;;
  _plot l0 l1 c ;;
  emit Poke.

Definition _handle_release (location : option pos) : M unit :=
  emit (HandleRelease location) ;;
  emit (Debug "Released!" []).

(** ** The edge-detection properties *)

Definition _was_just_pressed (p : Paint) : bool :=
  _pressed p && negb (_last_pressed p).

Definition _was_just_released (p : Paint) : bool :=
  negb (_pressed p) && _last_pressed p.

(** [_did_move] returns [None] (falsy) when either location is missing. *)
Definition _did_move (p : Paint) : bool :=
  match _location p, _last_location p with
  | Some l, Some ll =>
      let x_changed := negb (fst l =? fst ll) in
      let y_changed := negb (snd l =? snd ll) in
      x_changed || y_changed
  | _, _ => false
  end.

(** ** Paint._update and the body of Paint.run *)

(** [polled] is what [self._poller.poll()] returns on this tick. *)
Definition _update (polled : Sample) : M unit :=
  modify (fun p => set_input (_pressed p) (_pressed p) (_location p) (_location p) p) ;;
  modify (fun p => set_input (fst polled) (_last_pressed p) (snd polled) (_last_location p) p) ;;
  p <- get id ;;
  emit (Debug "Update: %s->%s, %s->%s"
          [VBool (_last_pressed p); VBool (_pressed p);
           VLoc (_last_location p); VLoc (_location p)]).

(** One iteration of the [while True] loop of [run]. *)
Definition tick (fuel : nat) (polled : Sample) : M unit :=
  _update polled ;;
  p <- get id ;;
  (if _was_just_pressed p then _handle_press (_location p)
   else if _was_just_released p then _handle_release (_location p)
   else ret tt) ;;
  p <- get id ;;
  (if _did_move p && _pressed p
   then _handle_motion fuel (_last_location p) (_location p)
   else ret tt) ;;
  emit (Sleep 100).

(** [run] never returns; its finite prefixes are the iterations driven by
    the successive results of [poll()]. *)
Fixpoint run (fuel : nat) (polls : list Sample) : M unit :=
  match polls with
  | [] => ret tt
  | s :: polls' => tick fuel s ;; run fuel polls'
  end.

(** [run] with a concrete poller, driven by its successive hardware
    readings. *)
Definition run_with {T} `{Poller T} (fuel : nat) (readings : list T) : M unit :=
  run fuel (map poll readings).

(** The handler entries of a trace. *)
Definition is_handler_call (e : event) : bool :=
  match e with
  | HandlePress _ | HandleRelease _ | HandleMotion _ _ => true
  | _ => false
  end.

Definition handler_calls (t : list event) : list event :=
  List.filter is_handler_call t.

(** * Definitions used by the statements and proofs *)

(** The state after [_plot x y c]: the cell is set when [(x, y)] is inside
    the bitmap, and nothing changes otherwise. *)
Definition plot_state (x y c : Z) (p : Paint) : Paint :=
  match Bitmap_setitem (_fg_bitmap p) x y c with
  | inr b' => set_fg_bitmap b' p
  | inl _ => p
  end.

(** One iteration's effect on the state: the write, then [_x] and [_y]. *)
Definition paint_px (c : Z) (p : Paint) (px : pos) : Paint :=
  set_xy (fst px) (snd px) (plot_state (fst px) (snd px) c p).

Definition px_events (c : Z) (px : pos) : list event :=
  [SetPixel (fst px) (snd px) c; Sleep 3].

(** The primary/secondary coordinates visited by [n] iterations of the loop,
    with [E] holding twice the value of [err]. *)
Fixpoint walk (n : nat) (rev : bool) (dx dy ystep : Z) (x0 y0 E : Z) : list pos :=
  match n with
  | O => []
  | S n' =>
      let E := E - 2 * dy in
      let '(y0', E) := if E <? 0 then (y0 + ystep, E + 2 * dx) else (y0, E) in
      (x0, y0) :: walk n' rev dx dy ystep (if rev then x0 - 1 else x0 + 1) y0' E
  end.

(** Undo the axis swap of a steep segment. *)
Definition unswap (steep : bool) (px : pos) : pos :=
  if steep then (snd px, fst px) else px.

Definition loop_body (steep : bool) (x0 y0 : Z) : M unit :=
  if steep then
    c <- get _pencolor ;;
    try_pass IndexError (_plot y0 x0 c) ;;
    modify (set_xy y0 x0) ;;
    emit (Sleep 3)
  else
    c <- get _pencolor ;;
    try_pass IndexError (_plot x0 y0 c) ;;
    modify (set_xy x0 y0) ;;
    emit (Sleep 3).

(** The pixels [_goto] emits for a segment, in emission order: the walk from
    the start point, with the setup of [_goto]. *)
Definition goto_pixels (start end_ : pos) : list pos :=
  let '(x0, y0) := start in
  let '(x1, y1) := end_ in
  let steep := Z.abs (y1 - y0) >? Z.abs (x1 - x0) in
  let '(x0, y0, x1, y1) :=
    if steep then (y0, x0, y1, x1) else (x0, y0, x1, y1) in
  let rev := x0 >? x1 in
  let dx := if rev then x0 - x1 else x1 - x0 in
  let dy := Z.abs (y1 - y0) in
  let ystep := if y0 <? y1 then 1 else -1 in
  map (unswap steep) (walk (Z.to_nat (dx + 1)) rev dx dy ystep x0 y0 dx).

(** The length of the dominant axis of a segment. *)
Definition extent (a b : pos) : Z :=
  Z.max (Z.abs (fst b - fst a)) (Z.abs (snd b - snd a)).

(** Loop iterations that [_goto] needs: one per pixel and the final test. *)
Definition goto_fuel (a b : pos) : nat := Z.to_nat (extent a b) + 2.

(** The primary coordinate moves by one at each pixel. *)
Definition primary (rev : bool) (x0 : Z) (i : nat) : Z :=
  if rev then x0 - Z.of_nat i else x0 + Z.of_nat i.

(** Secondary-axis steps taken before the [k]-th pixel of a walk that
    started with [err = dx / 2]. *)
Definition ysteps (dx dy k : Z) : Z := (2 * k * dy + dx - 1) / (2 * dx).

(** The path in closed form: pixel [i] lies [i] steps along the primary
    axis and [ysteps dx dy i] steps along the secondary one. *)
Definition path (rev : bool) (ystep dx dy x0 y0 : Z) (n : nat) : list pos :=
  map (fun i : nat => (primary rev x0 i, y0 + ystep * ysteps dx dy (Z.of_nat i)))
      (seq 0 n).

(** The walk in primary/secondary coordinates, as [_goto] sets it up after
    the axis swap. *)
Definition goto_walk (s e : pos) : list pos :=
  let rev := fst s >? fst e in
  let dx := if rev then fst s - fst e else fst e - fst s in
  let dy := Z.abs (snd e - snd s) in
  let ystep := if snd s <? snd e then 1 else -1 in
  walk (Z.to_nat (dx + 1)) rev dx dy ystep (fst s) (snd s) dx.

Definition is_steep (a b : pos) : bool :=
  Z.abs (snd b - snd a) >? Z.abs (fst b - fst a).

(** The pixel [k] steps from the start lies exactly half-way between two
    pixel rows: there [err] reaches [0] and the test [err < 0] fails. *)
Definition tie_at (D d k : Z) : bool := (2 * k * d + D) mod (2 * D) =? 0.

(** No inner pixel of the segment is at a tie. *)
Definition tie_free (a b : pos) : bool :=
  let D := extent a b in
  let d := Z.min (Z.abs (fst b - fst a)) (Z.abs (snd b - snd a)) in
  forallb (fun k : nat => negb (tie_at D d (Z.of_nat k))) (seq 1 (Z.to_nat D - 1)).

(** The handler entries of a tick, from the previous and the current
    sample. *)
Definition classify (prev cur : Sample) : list event :=
  (if fst cur && negb (fst prev) then [HandlePress (snd cur)]
   else if negb (fst cur) && fst prev then [HandleRelease (snd cur)]
   else [])
  ++ match snd prev, snd cur with
     | Some a, Some b =>
         if bool_decide (a <> b) && fst cur
         then [HandleMotion (Some a) (Some b)] else []
     | _, _ => []
     end.

(** ** Definitions for the further properties *)

(** The [k]-th pixel of the segment from [a] to [b], in closed form. *)
Definition goto_point (a b : pos) (k : nat) : pos :=
  let steep := is_steep a b in
  let s := unswap steep a in
  let e := unswap steep b in
  unswap steep
    (primary (fst s >? fst e) (fst s) k,
     snd s + (if snd s <? snd e then 1 else -1)
             * ysteps (Z.abs (fst e - fst s)) (Z.abs (snd e - snd s)) (Z.of_nat k)).

(** What a computation guarantees from the state [p], whatever its outcome:
    every event of its trace satisfies [E p], and the state it ends in,
    normally or by an exception, is related to [p] by [R]. *)
Definition preserves_at {A} (R : Paint -> Paint -> Prop)
    (E : Paint -> event -> Prop) (m : M A) (p : Paint) : Prop :=
  Forall (E p) (fst (m p)) /\
  match snd (m p) with
  | Ok _ q | Exc _ q => R p q
  | OutOfFuel => True
  end.

(** What drawing never changes: the pen colour and all dimensions; a cell
    either keeps its value or lies inside the bitmap and holds the pen
    colour. *)
Definition frame (p q : Paint) : Prop :=
  _pencolor q = _pencolor p /\ _w q = _w p /\ _h q = _h p /\
  width (_fg_bitmap q) = width (_fg_bitmap p) /\
  height (_fg_bitmap q) = height (_fg_bitmap p) /\
  forall k : pos,
    cells (_fg_bitmap q) !! k = cells (_fg_bitmap p) !! k \/
    (in_bounds (_fg_bitmap p) (fst k) (snd k) = true /\
     cells (_fg_bitmap q) !! k = Some (_pencolor p)).

(** The four fields that hold the current and the previous sample. *)
Definition same_input (p q : Paint) : Prop :=
  _pressed q = _pressed p /\ _last_pressed q = _last_pressed p /\
  _location q = _location p /\ _last_location q = _last_location p.

Definition frame_input (p q : Paint) : Prop := frame p q /\ same_input p q.

(** Every pixel write of a trace uses the pen colour. *)
Definition pen_only (p : Paint) (e : event) : Prop :=
  match e with
  | SetPixel _ _ c => c = _pencolor p
  | _ => True
  end.

(** Loop iterations that a run needs: enough for the segment between any
    two consecutive positions of the polled samples, starting from the
    stored location [loc]. *)
Fixpoint run_fuel (loc : option pos) (polls : list Sample) : nat :=
  match polls with
  | [] => 0
  | s :: polls' =>
      Nat.max (match loc, snd s with
               | Some a, Some b => goto_fuel a b
               | _, _ => 0
               end)
              (run_fuel (snd s) polls')
  end.

(** ** CursorPoller._cursor_bitmap and CursorPoller.__init__ *)

(** [for i in range(0, n): body] over a state, stopping at the first
    exception. *)
Definition for_range {S : Type} (n : Z) (body : Z -> S -> exn + S) (s : S) : exn + S :=
  fold_left
    (fun acc i => match acc with inr s => body i s | inl e => inl e end)
    (map Z.of_nat (seq 0 (Z.to_nat n)))
    (inr s).

(** [_cursor_bitmap]: a 20 x 20 bitmap with its outline set to 1.  The item
    assignments are not inside a [try], so an [IndexError] would
    propagate. *)
Definition _cursor_bitmap : exn + Bitmap :=
  let bmp := Bitmap_new 20 20 in
  match
    for_range (height bmp)
      (fun i bmp =>
         match Bitmap_setitem bmp 0 i 1 with
         | inr bmp => Bitmap_setitem bmp (width bmp - 1) i 1
         | inl e => inl e
         end) bmp
  with
  | inr bmp =>
      for_range (width bmp)
        (fun i bmp =>
           match Bitmap_setitem bmp i 0 1 with
           | inr bmp => Bitmap_setitem bmp i (height bmp - 1) 1
           | inl e => inl e
           end) bmp
  | inl e => inl e
  end.

(** [CursorPoller.__init__]: the offsets are half the size of the cursor
    bitmap; [cursor_held], [cursor_x] and [cursor_y] stand for the state of
    the external cursor objects. *)
Definition CursorPoller___init__ (cursor_held : bool) (cursor_x cursor_y : Z)
    : exn + CursorPoller :=
  match _cursor_bitmap with
  | inr cursor_bmp =>
      inr {| held := cursor_held;
             mouse_cursor_x := cursor_x;
             mouse_cursor_y := cursor_y;
             _x_offset := width cursor_bmp / 2;
             _y_offset := height cursor_bmp / 2 |}
  | inl e => inl e
  end.

(** ** Color and the palettes of Paint.__init__ *)

Definition WHITE : Z := 0xFFFFFF.
Definition BLACK : Z := 0x000000.
Definition RED : Z := 0xFF0000.
Definition ORANGE : Z := 0xFFA500.
Definition YELLOW : Z := 0xFFFF00.
Definition GREEN : Z := 0x00FF00.
Definition BLUE : Z := 0x0000FF.
Definition PURPLE : Z := 0x800080.
Definition PINK : Z := 0xFFC0CB.

Definition colors : list Z := [BLACK; RED; ORANGE; YELLOW; GREEN; BLUE; PURPLE; WHITE].

(** Modelled from the spec: [displayio.Palette] is external, a fixed-length
    sequence of colours, all 0 when created; assigning outside its length
    raises [IndexError]. *)
Definition Palette_new (n : nat) : list Z := repeat 0 n.

Definition Palette_setitem (pal : list Z) (i : nat) (c : Z) : exn + list Z :=
  if (i <? length pal)%nat then inr (<[i := c]> pal) else inl IndexError.

(** [palette = displayio.Palette(len(cs)); for i, c in enumerate(cs):
    palette[i] = c], as [__init__] does for both palettes. *)
Definition fill_palette (cs : list Z) : exn + list Z :=
  fold_left
    (fun acc ic => match acc with
                   | inr pal => Palette_setitem pal (fst ic) (snd ic)
                   | inl e => inl e
                   end)
    (combine (seq 0 (length cs)) cs)
    (inr (Palette_new (length cs))).


(** ** Symmetries of the pixel grid *)

Definition translate (t a : pos) : pos := (fst a + fst t, snd a + snd t).
Definition mirror_x (a : pos) : pos := (- fst a, snd a).
Definition mirror_y (a : pos) : pos := (fst a, - snd a).
Definition transpose (a : pos) : pos := (snd a, fst a).

(** ** Strokes *)


(** The samples of one stroke: contact at [a], then at each point of
    [rest], then no contact. *)
Definition stroke_polls (a : pos) (rest : list pos) : list Sample :=
  (true, Some a) :: map (fun b => (true, Some b)) rest ++ [(false, None)].


(** The handler entries of a whole run: those of each sample against the
    one before it. *)
Fixpoint classify_run (prev : Sample) (polls : list Sample) : list event :=
  match polls with
  | [] => []
  | s :: polls' => classify prev s ++ classify_run s polls'
  end.

(** ** The walk with its float accumulator *)

(** How a walk ends: normally, by an exception, or at the loop bound of the
    model. *)
Inductive outcome : Type :=
| Done
| Raised (e : exn)
| NoFuel.

Definition finish (o : outcome) (q : Paint) : result unit :=
  match o with
  | Done => Ok tt q
  | Raised e => Exc e q
  | NoFuel => OutOfFuel
  end.

(** The updates of [err] in one iteration: whether the secondary coordinate
    steps, and the new [err]; or the exception of a conversion. *)
Definition err_next (dx dy : Z) (err : float) : exn + (bool * float) :=
  match float_of_int dy with
  | inl e => inl e
  | inr fdy =>
      let err := float_sub err fdy in
      if float_lt_0 err then
        match float_of_int dx with
        | inl e => inl e
        | inr fdx => inr (true, float_add err fdx)
        end
      else inr (false, err)
  end.

(** The primary/secondary coordinates that the loop visits when [n] pixels
    remain to the end point, and how it ends. *)
Fixpoint fwalk (fuel : nat) (rev : bool) (dx dy ystep : Z) (n : Z)
    (x0 y0 : Z) (err : float) : list pos * outcome :=
  match fuel with
  | O => ([], NoFuel)
  | S fuel' =>
      if 0 <? n then
        match err_next dx dy err with
        | inl e => ([(x0, y0)], Raised e)
        | inr (stepped, err') =>
            let W := fwalk fuel' rev dx dy ystep (n - 1)
                       (if rev then x0 - 1 else x0 + 1)
                       (if stepped then y0 + ystep else y0) err' in
            ((x0, y0) :: fst W, snd W)
        end
      else ([], Done)
  end.

(** The walk from [s] to [e] in primary/secondary coordinates, as [_goto]
    sets it up after the axis swap. *)
Definition seg_outcome (fuel : nat) (s e : pos) : list pos * outcome :=
  let rev := fst s >? fst e in
  let dx := if rev then fst s - fst e else fst e - fst s in
  let dy := Z.abs (snd e - snd s) in
  let ystep := if snd s <? snd e then 1 else -1 in
  match int_truediv dx 2 with
  | inl ex => ([], Raised ex)
  | inr err => fwalk fuel rev dx dy ystep (dx + 1) (fst s) (snd s) err
  end.

(** The pixels [_goto] emits for a segment, and how it ends. *)
Definition goto_outcome (fuel : nat) (a b : pos) : list pos * outcome :=
  let steep := is_steep a b in
  let W := seg_outcome fuel (unswap steep a) (unswap steep b) in
  (map (unswap steep) (fst W), snd W).

(** The float that holds [E / 2]. *)
Definition half_int (E : Z) : float := Fin (E * 2 ^ 1073).

(** The segment is short enough for the float accumulator to be exact:
    every value [err] takes is then a half-integer of magnitude at most
    [2 ^ 52]. *)
Definition exact_range (a b : pos) : Prop := extent a b < 2 ^ 52.

(** The accumulator is exact on every segment of a run that starts with
    the stored location [loc]. *)
Fixpoint run_exact (loc : option pos) (polls : list Sample) : Prop :=
  match polls with
  | [] => True
  | s :: polls' =>
      match loc, snd s with
      | Some a, Some b => exact_range a b
      | _, _ => True
      end /\ run_exact (snd s) polls'
  end.

(** An accumulator that is not negative. *)
Definition err_nonneg (err : float) : Prop :=
  match err with
  | Fin n => 0 <= n
  | PosInf => True
  | NegInf | NaN => False
  end.


(** * Verification *)



(** ** What one pixel write does to the state *)

Lemma _plot_run x y c p :
  _plot x y c p = ([SetPixel x y c], Ok tt (plot_state x y c p)).
Proof.
  unfold _plot, plot_state, try_pass, bind, emit, get, modify, raise.
  destruct (Bitmap_setitem (_fg_bitmap p) x y c) as [[]|b'] eqn:Hset; try reflexivity;
    unfold Bitmap_setitem in Hset; destruct (in_bounds _ _ _); discriminate.
Qed.

Lemma try_pass_Ok e (m : M unit) p t q :
  m p = (t, Ok tt q) -> try_pass e m p = (t, Ok tt q).
Proof. intros H. unfold try_pass. now rewrite H. Qed.

Lemma plot_state_pencolor x y c p : _pencolor (plot_state x y c p) = _pencolor p.
Proof. unfold plot_state. now destruct (Bitmap_setitem _ _ _ _). Qed.

Lemma paint_px_pencolor c p px : _pencolor (paint_px c p px) = _pencolor p.
Proof. unfold paint_px. cbn. apply plot_state_pencolor. Qed.

(** ** Rounding to 53 bits *)

Lemma round53_eq n :
  round53 n =
    let a := Z.abs n in
    let k := Z.log2 a - 52 in
    if k <=? 0 then n
    else
      let q := a / 2 ^ k in
      let r := a mod 2 ^ k in
      let q' := if (2 ^ (k - 1) <? r) || ((r =? 2 ^ (k - 1)) && Z.odd q)
                then q + 1 else q in
      Z.sgn n * (q' * 2 ^ k).
Proof.
  unfold round53. cbv zeta.
  destruct (Z.leb_spec (Z.log2 (Z.abs n) - 52) 0) as [Hk|Hk]; [reflexivity|].
  now rewrite Z.shiftr_div_pow2, Z.land_ones, Z.shiftl_mul_pow2 by lia.
Qed.

(** A number whose dropped bits are all zero is not changed. *)
Lemma round53_divisible n :
  (0 < Z.log2 (Z.abs n) - 52 -> Z.abs n mod 2 ^ (Z.log2 (Z.abs n) - 52) = 0) ->
  round53 n = n.
Proof.
  intros Hmod. rewrite round53_eq. cbv zeta.
  destruct (Z.leb_spec (Z.log2 (Z.abs n) - 52) 0) as [Hk|Hk]; [reflexivity|].
  specialize (Hmod Hk).
  set (k := Z.log2 (Z.abs n) - 52) in *.
  rewrite Hmod.
  assert (Hhalf : 0 < 2 ^ (k - 1)) by (apply Z.pow_pos_nonneg; lia).
  replace (2 ^ (k - 1) <? 0) with false by (symmetry; apply Z.ltb_ge; lia).
  replace (0 =? 2 ^ (k - 1)) with false by (symmetry; apply Z.eqb_neq; lia).
  cbn [orb andb].
  assert (Hdiv : Z.abs n = 2 ^ k * (Z.abs n / 2 ^ k)).
  { apply Z.div_exact; [|exact Hmod]. apply Z.pow_nonzero; lia. }
  rewrite Z.mul_comm in Hdiv. rewrite <- Hdiv.
  rewrite Z.mul_comm. apply Z.abs_sgn.
Qed.

Lemma round53_exact m j :
  Z.abs m <= 2 ^ 53 -> 0 <= j -> round53 (m * 2 ^ j) = m * 2 ^ j.
Proof.
  intros Hm Hj. apply round53_divisible.
  assert (Hpj : 0 < 2 ^ j) by (apply Z.pow_pos_nonneg; lia).
  rewrite Z.abs_mul, (Z.abs_eq (2 ^ j)) by lia.
  destruct (Z.eq_dec m 0) as [->|Hm0].
  { change (Z.abs 0) with 0. rewrite Z.mul_0_l. change (Z.log2 0) with 0. lia. }
  rewrite Z.log2_mul_pow2 by lia.
  remember (j + Z.log2 (Z.abs m) - 52) as k eqn:Hkdef.
  intros Hk0.
  assert (Hl : Z.log2 (Z.abs m) <= 53).
  { rewrite <- (Z.log2_pow2 53) by lia. now apply Z.log2_le_mono. }
  destruct (Z.le_gt_cases k j) as [Hkj|Hkj].
  - replace j with ((j - k) + k) by lia. rewrite Z.pow_add_r by lia.
    rewrite Z.mul_assoc. apply Z_mod_mult.
  - assert (Hl53 : Z.log2 (Z.abs m) = 53) by lia.
    assert (Hge : 2 ^ 53 <= Z.abs m).
    { rewrite <- Hl53. apply Z.log2_spec. lia. }
    assert (Hk : k = j + 1) by lia.
    replace (Z.abs m) with (2 ^ 53) by lia.
    rewrite Hk, <- Z.pow_add_r by lia.
    replace (53 + j) with (52 + (j + 1)) by lia. rewrite Z.pow_add_r by lia.
    apply Z_mod_mult.
Qed.

(** The shape of a rounded number: at most 53 significant bits. *)
Lemma round53_shape n :
  exists m j, round53 n = m * 2 ^ j /\ Z.abs m <= 2 ^ 53 /\ 0 <= j /\
              j = Z.max 0 (Z.log2 (Z.abs n) - 52) /\
              (0 <= n -> 0 <= m) /\ (0 < n -> 0 < m) /\ (n <= 0 -> m <= 0).
Proof.
  rewrite round53_eq. cbv zeta.
  set (a := Z.abs n). set (k := Z.log2 a - 52).
  destruct (Z.leb_spec k 0) as [Hk|Hk].
  - exists n, 0. rewrite Z.pow_0_r, Z.mul_1_r. split; [reflexivity|].
    split.
    + destruct (Z.eq_dec n 0) as [->|Hn]; [cbn; lia|].
      assert (a < 2 ^ (Z.succ (Z.log2 a))) by (apply Z.log2_spec; subst a; lia).
      assert (2 ^ Z.succ (Z.log2 a) <= 2 ^ 53) by (apply Z.pow_le_mono_r; lia).
      subst a. lia.
    + repeat split; lia.
  - assert (Ha : 0 < a).
    { destruct (Z.eq_dec a 0) as [H0|H0]; [|subst a; lia].
      subst k. rewrite H0 in Hk. cbn in Hk. lia. }
    assert (Hspec : 2 ^ Z.log2 a <= a < 2 ^ Z.succ (Z.log2 a))
      by (apply Z.log2_spec; exact Ha).
    assert (Hpk : 0 < 2 ^ k) by (apply Z.pow_pos_nonneg; lia).
    assert (Hlo : 2 ^ 52 <= a / 2 ^ k).
    { apply Z.div_le_lower_bound; [lia|]. rewrite Z.mul_comm, <- Z.pow_add_r by lia.
      replace (52 + k) with (Z.log2 a) by lia. lia. }
    assert (Hhi : a / 2 ^ k < 2 ^ 53).
    { apply Z.div_lt_upper_bound; [lia|]. rewrite <- Z.pow_add_r by lia.
      replace (k + 53) with (Z.succ (Z.log2 a)) by lia. lia. }
    match goal with
    | |- context [if ?c then ?x + 1 else ?x] =>
        set (q' := if c then x + 1 else x);
        assert (Hq' : 2 ^ 52 <= q' <= 2 ^ 53) by (subst q'; destruct c; lia)
    end.
    exists (Z.sgn n * q'), k. split; [ring|].
    assert (H52 : 0 < 2 ^ 52) by (apply Z.pow_pos_nonneg; lia).
    split; [|split; [lia|split; [lia|]]].
    + rewrite Z.abs_mul.
      destruct (Z.sgn_spec n) as [[? ->]|[[? ->]|[? ->]]]; cbn [Z.abs Z.opp]; lia.
    + subst a. destruct (Z.sgn_spec n) as [[? ->]|[[? ->]|[? ->]]]; repeat split; try lia; nia.
Qed.

Lemma round53_idem n : round53 (round53 n) = round53 n.
Proof.
  destruct (round53_shape n) as (m & j & -> & Hm & Hj & _).
  now apply round53_exact.
Qed.

Lemma round53_opp n : round53 (- n) = - round53 n.
Proof.
  rewrite !round53_eq. cbv zeta. rewrite Z.abs_opp, Z.sgn_opp.
  destruct (_ <=? 0); [reflexivity|]. ring.
Qed.

Lemma round53_nonneg n : 0 <= n -> 0 <= round53 n.
Proof.
  intros Hn. destruct (round53_shape n) as (m & j & -> & _ & Hj & _ & Hs & _).
  apply Z.mul_nonneg_nonneg; [now apply Hs|]. apply Z.pow_nonneg. lia.
Qed.

Lemma round53_pos n : 0 < n -> 0 < round53 n.
Proof.
  intros Hn. destruct (round53_shape n) as (m & j & -> & _ & Hj & _ & _ & Hs & _).
  apply Z.mul_pos_pos; [now apply Hs|]. apply Z.pow_pos_nonneg; lia.
Qed.


Lemma round53_double n : round53 (2 * n) = 2 * round53 n.
Proof.
  destruct (Z.eq_dec n 0) as [->|Hn]; [reflexivity|].
  rewrite !round53_eq. cbv zeta.
  rewrite Z.abs_mul, (Z.abs_eq 2), Z.log2_double by lia.
  set (a := Z.abs n). set (k := Z.log2 a - 52).
  replace (Z.succ (Z.log2 a) - 52) with (k + 1) by lia.
  destruct (Z.leb_spec (k + 1) 0) as [Hk1|Hk1].
  { destruct (Z.leb_spec k 0); [reflexivity|lia]. }
  destruct (Z.leb_spec k 0) as [Hk|Hk].
  - assert (k = 0) by lia. replace (k + 1) with 1 by lia.
    replace (1 - 1) with 0 by lia. rewrite Z.pow_0_r, Z.pow_1_r.
    rewrite (Z.mul_comm 2 a), Z.div_mul, Z_mod_mult by lia.
    cbn [Z.ltb Z.compare Z.eqb orb andb].
    rewrite Z.sgn_mul. change (Z.sgn 2) with 1.
    transitivity (2 * (Z.sgn n * a)); [ring|]. subst a.
    now rewrite (Z.mul_comm (Z.sgn n)), Z.abs_sgn.
  - assert (Hpk : 0 < 2 ^ k) by (apply Z.pow_pos_nonneg; lia).
    replace (k + 1 - 1) with (1 + (k - 1)) by lia.
    replace (2 ^ (k + 1)) with (2 * 2 ^ k)
      by (rewrite Z.pow_add_r by lia; ring).
    rewrite (Z.pow_add_r 2 1 (k - 1)) by lia. rewrite Z.pow_1_r.
    rewrite Z.div_mul_cancel_l, Z.mul_mod_distr_l by lia.
    set (r := a mod 2 ^ k). set (h := 2 ^ (k - 1)).
    replace (2 * h <? 2 * r) with (h <? r)
      by (destruct (Z.ltb_spec h r), (Z.ltb_spec (2 * h) (2 * r)); lia || reflexivity).
    replace (2 * r =? 2 * h) with (r =? h)
      by (destruct (Z.eqb_spec r h), (Z.eqb_spec (2 * r) (2 * h)); lia || reflexivity).
    rewrite Z.sgn_mul. change (Z.sgn 2) with 1. ring.
Qed.

(** ** The float operations on half-integers *)

Lemma pow_1074 : 2 ^ 1074 = 2 * 2 ^ 1073.
Proof. change 1074 with (1 + 1073). now rewrite Z.pow_add_r, Z.pow_1_r by lia. Qed.

Lemma half_lt_max m : Z.abs m <= 2 ^ 53 -> Z.abs (m * 2 ^ 1073) < float_max.
Proof.
  intros Hm. unfold float_max.
  assert (Hp : 0 < 2 ^ 1073) by (apply Z.pow_pos_nonneg; lia).
  rewrite Z.abs_mul, (Z.abs_eq (2 ^ 1073)) by lia.
  apply Z.le_lt_trans with (2 ^ 53 * 2 ^ 1073).
  - apply Z.mul_le_mono_nonneg_r; lia.
  - rewrite <- Z.pow_add_r by lia. apply Z.pow_lt_mono_r; lia.
Qed.

Lemma fin_or_inf_half m :
  Z.abs m <= 2 ^ 53 -> fin_or_inf (m * 2 ^ 1073) = half_int m.
Proof.
  intros Hm. unfold fin_or_inf, half_int.
  pose proof (half_lt_max m Hm) as Hlt.
  now replace (float_max <=? Z.abs (m * 2 ^ 1073)) with false
    by (symmetry; apply Z.leb_gt; exact Hlt).
Qed.

Lemma float_of_int_exact z :
  Z.abs z <= 2 ^ 52 -> float_of_int z = inr (half_int (2 * z)).
Proof.
  intros Hz. unfold float_of_int, half_int. cbv zeta.
  assert (Hm : Z.abs (2 * z) <= 2 ^ 53).
  { change 53 with (1 + 52). rewrite Z.pow_add_r, Z.pow_1_r by lia. lia. }
  replace (z * 2 ^ 1074) with (2 * z * 2 ^ 1073) by (rewrite pow_1074; ring).
  rewrite round53_exact by (exact Hm || lia).
  pose proof (half_lt_max (2 * z) Hm) as Hlt.
  now replace (float_max <=? Z.abs (2 * z * 2 ^ 1073)) with false
    by (symmetry; apply Z.leb_gt; exact Hlt).
Qed.

(** [a / 2] is [a] halved and rounded. *)
Lemma int_truediv_2 a :
  int_truediv a 2 =
    if float_max <=? round53 (Z.abs a * 2 ^ 1073) then inl OverflowError
    else inr (Fin (Z.sgn a * round53 (Z.abs a * 2 ^ 1073))).
Proof.
  unfold int_truediv. change (2 =? 0) with false. cbv iota zeta.
  change (Z.abs 2) with 2. change (Z.sgn 2) with 1.
  replace (Z.abs a * 2 ^ 1074) with (Z.abs a * 2 ^ 1073 * 2)
    by (rewrite pow_1074; ring).
  rewrite Z.div_mul, Z.mod_mul by lia. rewrite Z.eqb_refl.
  now rewrite Z.mul_1_r.
Qed.

Lemma int_truediv_2_exact dx :
  0 <= dx <= 2 ^ 53 -> int_truediv dx 2 = inr (half_int dx).
Proof.
  intros Hdx. rewrite int_truediv_2. rewrite (Z.abs_eq dx) by lia.
  rewrite round53_exact by (rewrite ?Z.abs_eq; lia).
  pose proof (half_lt_max dx ltac:(rewrite Z.abs_eq; lia)) as Hlt.
  assert (Hp : 0 < 2 ^ 1073) by (apply Z.pow_pos_nonneg; lia).
  rewrite Z.abs_mul, (Z.abs_eq dx), (Z.abs_eq (2 ^ 1073)) in Hlt by lia.
  replace (float_max <=? dx * 2 ^ 1073) with false
    by (symmetry; apply Z.leb_gt; exact Hlt).
  unfold half_int. do 2 f_equal.
  destruct (Z.eq_dec dx 0) as [->|Hne]; [reflexivity|].
  rewrite Z.sgn_pos by lia. apply Z.mul_1_l.
Qed.

Lemma float_add_half E1 E2 :
  Z.abs (E1 + E2) <= 2 ^ 53 ->
  float_add (half_int E1) (half_int E2) = half_int (E1 + E2).
Proof.
  intros H. unfold float_add, half_int at 1 2.
  rewrite <- Z.mul_add_distr_r, round53_exact by (exact H || lia).
  now apply fin_or_inf_half.
Qed.

Lemma float_sub_half E1 E2 :
  Z.abs (E1 - E2) <= 2 ^ 53 ->
  float_sub (half_int E1) (half_int E2) = half_int (E1 - E2).
Proof.
  intros H. unfold float_sub, float_neg, half_int at 2.
  fold (half_int E1). rewrite <- Z.mul_opp_l. fold (half_int (- E2)).
  rewrite float_add_half by (now rewrite Z.add_opp_r).
  now rewrite Z.add_opp_r.
Qed.

Lemma float_lt_0_half E : float_lt_0 (half_int E) = (E <? 0).
Proof.
  unfold float_lt_0, half_int.
  assert (Hp : 0 < 2 ^ 1073) by (apply Z.pow_pos_nonneg; lia).
  destruct (Z.ltb_spec E 0), (Z.ltb_spec (E * 2 ^ 1073) 0); try reflexivity; nia.
Qed.

(** One iteration on an exact accumulator: [E] is twice [err]. *)
Lemma err_next_exact dx dy E :
  0 <= dy <= dx -> dx < 2 ^ 52 -> 0 <= E <= 2 * dx ->
  err_next dx dy (half_int E) =
    inr (E - 2 * dy <? 0,
         half_int (if E - 2 * dy <? 0 then E - 2 * dy + 2 * dx else E - 2 * dy)).
Proof.
  intros Hdy Hdx HE. unfold err_next.
  assert (H53 : 2 ^ 53 = 2 * 2 ^ 52)
    by (change 53 with (1 + 52); now rewrite Z.pow_add_r, Z.pow_1_r by lia).
  rewrite !float_of_int_exact by lia. cbv zeta.
  rewrite float_sub_half by lia. rewrite float_lt_0_half.
  destruct (E - 2 * dy <? 0) eqn:Hneg; [|reflexivity].
  apply Z.ltb_lt in Hneg. rewrite float_add_half by lia. reflexivity.
Qed.

(** ** The loop of [_goto] performs the walk *)

Lemma bind_step {A B} (m : M A) (f : A -> M B) p t a q :
  m p = (t, Ok a q) ->
  bind m f p = let '(t', r) := f a q in (t ++ t', r).
Proof. intros H. unfold bind. now rewrite H. Qed.

Lemma loop_body_run steep x0 y0 p :
  loop_body steep x0 y0 p =
    (px_events (_pencolor p) (unswap steep (x0, y0)),
     Ok tt (paint_px (_pencolor p) p (unswap steep (x0, y0)))).
Proof.
  unfold loop_body.
  destruct steep; unfold bind at 1; cbn [get];
    unfold bind at 1;
    rewrite (try_pass_Ok _ _ _ _ _ (_plot_run _ _ _ _));
    reflexivity.
Qed.

Lemma loop_cond (rev : bool) (x0 x1 : Z) :
  (negb rev && (x0 <=? x1)) || (rev && (x1 <=? x0)) =
  (0 <? (if rev then x0 - x1 + 1 else x1 - x0 + 1)).
Proof.
  destruct rev; cbn [negb andb orb]; rewrite ?orb_false_r;
    destruct (Z.leb_spec x0 x1), (Z.leb_spec x1 x0), (Z.ltb_spec 0 (x0 - x1 + 1)),
      (Z.ltb_spec 0 (x1 - x0 + 1)); try reflexivity; lia.
Qed.

(** The updates of [err] and [y0] in an iteration, followed by the rest of
    the loop. *)
Lemma err_update_run (dx dy ystep y0 : Z) (err : float)
    (k : Z -> float -> M unit) (p : Paint) :
  (err <- float_sub_int err dy ;;
   ye <- (if float_lt_0 err
          then err <- float_add_int err dx ;; ret (y0 + ystep, err)
          else ret (y0, err)) ;;
   k (fst ye) (snd ye)) p =
  match err_next dx dy err with
  | inl e => ([], Exc e p)
  | inr (stepped, err') => k (if stepped then y0 + ystep else y0) err' p
  end.
Proof.
  unfold err_next, float_sub_int, float_add_int, lift.
  destruct (float_of_int dy) as [e|fdy]; [reflexivity|].
  unfold bind at 1 2, ret at 1 2. cbn [app]. cbv zeta.
  destruct (float_lt_0 (float_sub err fdy)).
  - destruct (float_of_int dx) as [e|fdx]; [reflexivity|].
    unfold bind, ret. cbn [app fst snd].
    now destruct (k (y0 + ystep) (float_add (float_sub err fdy) fdx) p).
  - unfold bind, ret. cbn [app fst snd].
    now destruct (k y0 (float_sub err fdy) p).
Qed.

Lemma _goto_loop_fwalk fuel :
  forall (steep rev : bool) (dx dy ystep x1 x0 y0 : Z) (err : float) (p : Paint),
    let W := fwalk fuel rev dx dy ystep
               (if rev then x0 - x1 + 1 else x1 - x0 + 1) x0 y0 err in
    _goto_loop fuel steep rev dx dy ystep x1 x0 y0 err p =
      (flat_map (px_events (_pencolor p)) (map (unswap steep) (fst W)),
       finish (snd W)
         (fold_left (paint_px (_pencolor p)) (map (unswap steep) (fst W)) p)).
Proof.
  induction fuel as [|fuel IH]; intros steep rev dx dy ystep x1 x0 y0 err p W;
    subst W; [reflexivity|].
  cbn [_goto_loop fwalk]. rewrite loop_cond.
  set (n := if rev then x0 - x1 + 1 else x1 - x0 + 1).
  destruct (0 <? n); [|reflexivity].
  fold (loop_body steep x0 y0).
  rewrite (bind_step _ _ _ _ _ _ (loop_body_run steep x0 y0 p)).
  pose proof (err_update_run dx dy ystep y0 err
                (fun y e => _goto_loop fuel steep rev dx dy ystep x1
                              (if rev then x0 - 1 else x0 + 1) y e)
                (paint_px (_pencolor p) p (unswap steep (x0, y0)))) as Hupd.
  cbv beta in Hupd. rewrite Hupd. clear Hupd.
  destruct (err_next dx dy err) as [e|[stepped err']].
  - cbn [fst snd map flat_map fold_left finish]. now rewrite app_nil_r.
  - rewrite IH. rewrite paint_px_pencolor.
    replace (if rev
             then (if rev then x0 - 1 else x0 + 1) - x1 + 1
             else x1 - (if rev then x0 - 1 else x0 + 1) + 1)
      with (n - 1) by (subst n; destruct rev; lia).
    reflexivity.
Qed.

Lemma goto_pixels_walk (a b : pos) :
  goto_pixels a b =
    map (unswap (is_steep a b))
      (goto_walk (unswap (is_steep a b) a) (unswap (is_steep a b) b)).
Proof.
  destruct a as [x0 y0], b as [x1 y1]. unfold goto_pixels, is_steep, goto_walk.
  cbn [fst snd]. now destruct (Z.abs (y1 - y0) >? Z.abs (x1 - x0)).
Qed.

Lemma unswap_steep_bound a b :
  let s := unswap (is_steep a b) a in
  let e := unswap (is_steep a b) b in
  Z.abs (snd e - snd s) <= Z.abs (fst e - fst s).
Proof.
  unfold is_steep. destruct (Z.gtb_spec (Z.abs (snd b - snd a)) (Z.abs (fst b - fst a)));
    cbn [unswap fst snd]; lia.
Qed.

Lemma unswap_extent a b :
  let s := unswap (is_steep a b) a in
  let e := unswap (is_steep a b) b in
  Z.abs (fst e - fst s) = extent a b /\
  Z.abs (snd e - snd s) = Z.min (Z.abs (fst b - fst a)) (Z.abs (snd b - snd a)).
Proof.
  unfold is_steep, extent.
  destruct (Z.gtb_spec (Z.abs (snd b - snd a)) (Z.abs (fst b - fst a)));
    cbn [unswap fst snd]; lia.
Qed.

(** What [_goto] does on two locations, for every input: the trace and the
    final state are those of the walk with its float accumulator. *)
Lemma _goto_outcome (fuel : nat) (a b : pos) (p : Paint) :
  _goto fuel (Some a) (Some b) p =
    (Debug "* GoTo from (%d, %d) to (%d, %d)"
       [VInt (fst a); VInt (snd a); VInt (fst b); VInt (snd b)]
       :: flat_map (px_events (_pencolor p)) (fst (goto_outcome fuel a b)),
     finish (snd (goto_outcome fuel a b))
       (fold_left (paint_px (_pencolor p)) (fst (goto_outcome fuel a b)) p)).
Proof.
  destruct a as [x0 y0], b as [x1 y1].
  unfold _goto, getitem.
  unfold bind at 1, ret at 1. unfold bind at 1, ret at 1.
  unfold bind at 1, ret at 1. unfold bind at 1, ret at 1.
  unfold bind at 1, emit at 1. cbn [app fst snd].
  unfold goto_outcome, seg_outcome, is_steep. cbn [fst snd].
  destruct (Z.abs (y1 - y0) >? Z.abs (x1 - x0)); cbn [unswap fst snd];
    match goal with
    | |- context [if ?c then (true, _) else _] => destruct c
    end;
    match goal with
    | |- context [int_truediv ?d 2] => destruct (int_truediv d 2) as [ex|err]
    end;
    unfold bind at 1, lift, raise, ret; try reflexivity;
    rewrite _goto_loop_fwalk; reflexivity.
Qed.

(** ** Within the exact range the float walk is the integer walk *)

Lemma fwalk_exact k :
  forall (fuel : nat) (rev : bool) (dx dy ystep x0 y0 E : Z),
    (k < fuel)%nat -> 0 <= dy <= dx -> dx < 2 ^ 52 -> 0 <= E <= 2 * dx ->
    fwalk fuel rev dx dy ystep (Z.of_nat k) x0 y0 (half_int E) =
      (walk k rev dx dy ystep x0 y0 E, Done).
Proof.
  induction k as [|k IH]; intros fuel rev dx dy ystep x0 y0 E Hfuel Hdy Hdx HE;
    (destruct fuel as [|fuel]; [lia|]); cbn [fwalk walk]; [reflexivity|].
  replace (0 <? Z.of_nat (S k)) with true by (symmetry; apply Z.ltb_lt; lia).
  replace (Z.of_nat (S k) - 1) with (Z.of_nat k) by lia.
  rewrite err_next_exact by assumption.
  destruct (E - 2 * dy <? 0) eqn:Hneg.
  - apply Z.ltb_lt in Hneg. rewrite IH by lia. reflexivity.
  - apply Z.ltb_ge in Hneg. rewrite IH by lia. reflexivity.
Qed.

Lemma seg_outcome_exact (fuel : nat) (s e : pos) :
  Z.abs (snd e - snd s) <= Z.abs (fst e - fst s) ->
  Z.abs (fst e - fst s) < 2 ^ 52 ->
  (Z.to_nat (Z.abs (fst e - fst s)) + 2 <= fuel)%nat ->
  seg_outcome fuel s e = (goto_walk s e, Done).
Proof.
  intros Hle Hlt Hfuel. unfold seg_outcome, goto_walk.
  assert (H53 : 2 ^ 53 = 2 * 2 ^ 52)
    by (change 53 with (1 + 52); now rewrite Z.pow_add_r, Z.pow_1_r by lia).
  destruct (Z.gtb_spec (fst s) (fst e)) as [Hrev|Hrev];
    rewrite int_truediv_2_exact by lia;
    match goal with
    | |- fwalk _ _ _ _ _ ?n _ _ _ = _ => rewrite <- (Z2Nat.id n) at 1 by lia
    end;
    apply fwalk_exact; lia.
Qed.

Lemma goto_outcome_exact (fuel : nat) (a b : pos) :
  (goto_fuel a b <= fuel)%nat -> exact_range a b ->
  goto_outcome fuel a b = (goto_pixels a b, Done).
Proof.
  unfold goto_fuel, exact_range. intros Hfuel Hex.
  unfold goto_outcome. rewrite goto_pixels_walk.
  destruct (unswap_extent a b) as [Hext _].
  rewrite seg_outcome_exact; [reflexivity | apply unswap_steep_bound | |];
    rewrite Hext; assumption.
Qed.

(** ** The pixel path of a segment *)

Lemma _goto_run (fuel : nat) (a b : pos) (p : Paint) :
  (goto_fuel a b <= fuel)%nat -> exact_range a b ->
  _goto fuel (Some a) (Some b) p =
    (Debug "* GoTo from (%d, %d) to (%d, %d)"
       [VInt (fst a); VInt (snd a); VInt (fst b); VInt (snd b)]
       :: flat_map (px_events (_pencolor p)) (goto_pixels a b),
     Ok tt (fold_left (paint_px (_pencolor p)) (goto_pixels a b) p)).
Proof.
  intros Hfuel Hex. rewrite _goto_outcome, goto_outcome_exact by assumption.
  reflexivity.
Qed.

Lemma pixels_px_events c l : pixels (flat_map (px_events c) l) = l.
Proof.
  induction l as [|[x y] l IH]; [reflexivity|].
  cbn. unfold pixels in IH. now rewrite IH.
Qed.

(** Beyond the exact range the accumulator is rounded and the walk leaves
    the closed form: from (0,0) to (2^60+1, 2^59+1) the second pixel is
    (1,0), where the exact accumulator would give (1,1). *)
Lemma goto_rounded :
  pixels (fst (_goto 4 (Some (0, 0)) (Some (2 ^ 60 + 1, 2 ^ 59 + 1))
                 (Paint_init 320 240))) =
    [(0, 0); (1, 0); (2, 1); (3, 1)] /\
  map (goto_point (0, 0) (2 ^ 60 + 1, 2 ^ 59 + 1)) (seq 0 4) =
    [(0, 0); (1, 1); (2, 1); (3, 2)].
Proof. split; vm_compute; reflexivity. Qed.

Lemma pixels_goto_outcome (fuel : nat) (a b : pos) (p : Paint) :
  pixels (fst (_goto fuel (Some a) (Some b) p)) = fst (goto_outcome fuel a b).
Proof.
  rewrite _goto_outcome. cbn [fst].
  change (pixels (?e :: ?t)) with (pixels t). apply pixels_px_events.
Qed.

Lemma pixels_goto (fuel : nat) (a b : pos) (p : Paint) :
  (goto_fuel a b <= fuel)%nat -> exact_range a b ->
  pixels (fst (_goto fuel (Some a) (Some b) p)) = goto_pixels a b.
Proof.
  intros Hfuel Hex. rewrite pixels_goto_outcome, goto_outcome_exact by assumption.
  reflexivity.
Qed.

(** ** The walk, whatever the accumulator does *)

Lemma primary_inj rev x0 : Finite.Injective (primary rev x0).
Proof. intros i j. unfold primary. destruct rev; lia. Qed.

Lemma primary_shift (rev : bool) (x0 : Z) (n : nat) :
  map (primary rev (if rev then x0 - 1 else x0 + 1)) (seq 0 n) =
  map (primary rev x0) (seq 1 n).
Proof.
  rewrite <- seq_shift, map_map. apply map_ext. intros i.
  unfold primary. destruct rev; lia.
Qed.

(** The primary coordinate moves by one at each pixel. *)
Lemma fwalk_primary fuel :
  forall (rev : bool) (dx dy ystep n x0 y0 : Z) (err : float),
    map fst (fst (fwalk fuel rev dx dy ystep n x0 y0 err)) =
    map (primary rev x0)
      (seq 0 (length (fst (fwalk fuel rev dx dy ystep n x0 y0 err)))).
Proof.
  induction fuel as [|fuel IH]; intros; cbn [fwalk]; [reflexivity|].
  destruct (0 <? n); [|reflexivity].
  destruct (err_next dx dy err) as [e|[stepped err']]; cbn [fst map length seq].
  - f_equal. unfold primary. destruct rev; lia.
  - rewrite IH, primary_shift. f_equal. unfold primary. destruct rev; lia.
Qed.

Lemma fwalk_primary_NoDup fuel rev dx dy ystep n x0 y0 err :
  List.NoDup (map fst (fst (fwalk fuel rev dx dy ystep n x0 y0 err))).
Proof.
  rewrite fwalk_primary. apply Finite.Injective_map_NoDup.
  - apply primary_inj.
  - apply List.seq_NoDup.
Qed.

Lemma seg_outcome_primary_NoDup fuel s e :
  List.NoDup (map fst (fst (seg_outcome fuel s e))).
Proof.
  unfold seg_outcome. destruct (int_truediv _ 2); [constructor|].
  apply fwalk_primary_NoDup.
Qed.

Lemma fwalk_head fuel rev dx dy ystep n x0 y0 err px :
  fst (fwalk fuel rev dx dy ystep n x0 y0 err) !! 0%nat = Some px -> px = (x0, y0).
Proof.
  destruct fuel as [|fuel]; cbn [fwalk]; [discriminate|].
  destruct (0 <? n); [|discriminate].
  destruct (err_next dx dy err) as [e|[stepped err']]; cbn; congruence.
Qed.

(** Consecutive pixels: one step along the primary axis, at most one along
    the secondary one. *)
Lemma fwalk_adjacent fuel :
  forall (rev : bool) (dx dy ystep n x0 y0 : Z) (err : float)
         (i : nat) (px qx : pos),
    Z.abs ystep = 1 ->
    fst (fwalk fuel rev dx dy ystep n x0 y0 err) !! i = Some px ->
    fst (fwalk fuel rev dx dy ystep n x0 y0 err) !! S i = Some qx ->
    Z.abs (fst qx - fst px) = 1 /\ Z.abs (snd qx - snd px) <= 1.
Proof.
  induction fuel as [|fuel IH]; intros rev dx dy ystep n x0 y0 err i px qx Hy;
    cbn [fwalk]; [discriminate|].
  destruct (0 <? n); [|discriminate].
  destruct (err_next dx dy err) as [e|[stepped err']]; cbn [fst].
  - intros _ H. destruct i; discriminate.
  - destruct i as [|i].
    + intros Hp Hq. injection Hp as <-. cbn in Hq.
      apply fwalk_head in Hq. subst qx. cbn [fst snd].
      destruct rev, stepped; lia.
    + intros Hp Hq. cbn in Hp, Hq. eapply IH; eassumption.
Qed.

Lemma seg_outcome_adjacent fuel s e i px qx :
  fst (seg_outcome fuel s e) !! i = Some px ->
  fst (seg_outcome fuel s e) !! S i = Some qx ->
  Z.abs (fst qx - fst px) = 1 /\ Z.abs (snd qx - snd px) <= 1.
Proof.
  unfold seg_outcome. destruct (int_truediv _ 2); [discriminate|].
  apply fwalk_adjacent. destruct (snd s <? snd e); reflexivity.
Qed.

(** *** Translations and mirror images of the walk *)

Lemma fwalk_translate fuel (tx ty : Z) :
  forall (rev : bool) (dx dy ystep n x0 y0 : Z) (err : float),
    fwalk fuel rev dx dy ystep n (x0 + tx) (y0 + ty) err =
      (map (translate (tx, ty)) (fst (fwalk fuel rev dx dy ystep n x0 y0 err)),
       snd (fwalk fuel rev dx dy ystep n x0 y0 err)).
Proof.
  induction fuel as [|fuel IH]; intros; cbn [fwalk]; [reflexivity|].
  destruct (0 <? n); [|reflexivity].
  destruct (err_next dx dy err) as [e|[stepped err']]; [reflexivity|].
  replace (if rev then x0 + tx - 1 else x0 + tx + 1)
    with ((if rev then x0 - 1 else x0 + 1) + tx) by (destruct rev; lia).
  replace (if stepped then y0 + ty + ystep else y0 + ty)
    with ((if stepped then y0 + ystep else y0) + ty) by (destruct stepped; lia).
  rewrite IH. reflexivity.
Qed.

Lemma fwalk_mirror_primary fuel :
  forall (rev : bool) (dx dy ystep n x0 y0 : Z) (err : float),
    fwalk fuel (negb rev) dx dy ystep n (- x0) y0 err =
      (map mirror_x (fst (fwalk fuel rev dx dy ystep n x0 y0 err)),
       snd (fwalk fuel rev dx dy ystep n x0 y0 err)).
Proof.
  induction fuel as [|fuel IH]; intros; cbn [fwalk]; [reflexivity|].
  destruct (0 <? n); [|reflexivity].
  destruct (err_next dx dy err) as [e|[stepped err']]; [reflexivity|].
  replace (if negb rev then - x0 - 1 else - x0 + 1)
    with (- (if rev then x0 - 1 else x0 + 1)) by (destruct rev; cbn [negb]; lia).
  rewrite IH. reflexivity.
Qed.

Lemma fwalk_mirror_secondary fuel :
  forall (rev : bool) (dx dy ystep n x0 y0 : Z) (err : float),
    fwalk fuel rev dx dy (- ystep) n x0 (- y0) err =
      (map mirror_y (fst (fwalk fuel rev dx dy ystep n x0 y0 err)),
       snd (fwalk fuel rev dx dy ystep n x0 y0 err)).
Proof.
  induction fuel as [|fuel IH]; intros; cbn [fwalk]; [reflexivity|].
  destruct (0 <? n); [|reflexivity].
  destruct (err_next dx dy err) as [e|[stepped err']]; [reflexivity|].
  replace (if stepped then - y0 + - ystep else - y0)
    with (- (if stepped then y0 + ystep else y0)) by (destruct stepped; lia).
  rewrite IH. reflexivity.
Qed.

(** A walk of at most one pixel does not depend on the directions. *)
Lemma fwalk_single fuel rev rev' dx dy ystep ystep' n x0 y0 err :
  n <= 1 ->
  fwalk fuel rev dx dy ystep n x0 y0 err =
  fwalk fuel rev' dx dy ystep' n x0 y0 err.
Proof.
  intros Hn. destruct fuel as [|fuel]; cbn [fwalk]; [reflexivity|].
  destruct (0 <? n); [|reflexivity].
  destruct (err_next dx dy err) as [e|[stepped err']]; [reflexivity|].
  destruct fuel; cbn [fwalk]; [reflexivity|].
  now replace (0 <? n - 1) with false by (symmetry; apply Z.ltb_ge; lia).
Qed.

(** *** Segments along the primary axis *)

Lemma float_of_int_0 : float_of_int 0 = inr (half_int 0).
Proof. now rewrite float_of_int_exact by (cbn; lia). Qed.

Lemma err_next_flat dx err :
  err_nonneg err ->
  exists err', err_next dx 0 err = inr (false, err') /\ err_nonneg err'.
Proof.
  intros Hnn. unfold err_next. rewrite float_of_int_0. cbv zeta.
  unfold half_int. rewrite Z.mul_0_l.
  destruct err as [n| | |]; cbn [err_nonneg] in Hnn; try contradiction.
  - unfold float_sub, float_neg, float_add. change (- 0) with 0.
    rewrite Z.add_0_r. pose proof (round53_nonneg n Hnn) as Hr.
    unfold fin_or_inf.
    destruct (float_max <=? Z.abs (round53 n)).
    + replace (round53 n <? 0) with false by (symmetry; apply Z.ltb_ge; lia).
      eexists. split; [reflexivity | exact I].
    + cbn [float_lt_0].
      replace (round53 n <? 0) with false by (symmetry; apply Z.ltb_ge; lia).
      eexists. split; [reflexivity | exact Hr].
  - eexists. split; [reflexivity | exact I].
Qed.

(** On a segment along the primary axis the secondary coordinate never
    steps, so its direction does not matter. *)
Lemma fwalk_flat fuel :
  forall (rev : bool) (dx ystep ystep' n x0 y0 : Z) (err : float),
    err_nonneg err ->
    fwalk fuel rev dx 0 ystep n x0 y0 err = fwalk fuel rev dx 0 ystep' n x0 y0 err.
Proof.
  induction fuel as [|fuel IH]; intros rev dx ystep ystep' n x0 y0 err Hnn;
    cbn [fwalk]; [reflexivity|].
  destruct (0 <? n); [|reflexivity].
  destruct (err_next_flat dx err Hnn) as (err' & -> & Hnn').
  now rewrite (IH rev dx ystep ystep') by exact Hnn'.
Qed.

Lemma int_truediv_2_nonneg dx err :
  0 <= dx -> int_truediv dx 2 = inr err -> err_nonneg err.
Proof.
  intros Hdx. rewrite int_truediv_2.
  destruct (float_max <=? _); [discriminate|].
  intros [= <-]. cbn [err_nonneg].
  assert (0 <= round53 (Z.abs dx * 2 ^ 1073)).
  { apply round53_nonneg. apply Z.mul_nonneg_nonneg; [lia|].
    apply Z.pow_nonneg. lia. }
  destruct (Z.sgn_spec dx) as [[? ->]|[[? ->]|[? ->]]]; lia.
Qed.

(** *** Diagonal segments *)

(** On a diagonal segment every iteration steps the secondary coordinate
    and leaves [err] as it was, unless a conversion overflows. *)
Lemma err_next_diag D err :
  0 < D -> int_truediv D 2 = inr err ->
  err_next D D err = inr (true, err) \/ exists e, err_next D D err = inl e.
Proof.
  intros HD. rewrite int_truediv_2. rewrite (Z.abs_eq D), (Z.sgn_pos D) by lia.
  rewrite Z.mul_1_l.
  assert (Hp : 0 < 2 ^ 1073) by (apply Z.pow_pos_nonneg; lia).
  set (r := round53 (D * 2 ^ 1073)).
  assert (Hr : 0 < r) by (apply round53_pos; nia).
  destruct (Z.leb_spec float_max r) as [|Hmax]; [discriminate|].
  intros [= <-]. unfold err_next, float_of_int. cbv zeta.
  replace (D * 2 ^ 1074) with (2 * (D * 2 ^ 1073)) by (rewrite pow_1074; ring).
  rewrite round53_double. fold r.
  destruct (float_max <=? Z.abs (2 * r)); [right; eexists; reflexivity|].
  left. unfold float_sub, float_neg, float_add.
  replace (r + - (2 * r)) with (- r) by lia.
  assert (Hrr : round53 r = r) by apply round53_idem.
  rewrite round53_opp, Hrr. unfold fin_or_inf.
  replace (float_max <=? Z.abs (- r)) with false
    by (symmetry; apply Z.leb_gt; lia).
  cbn [float_lt_0].
  replace (- r <? 0) with true by (symmetry; apply Z.ltb_lt; lia).
  replace (- r + 2 * r) with r by lia. rewrite Hrr.
  replace (float_max <=? Z.abs r) with false by (symmetry; apply Z.leb_gt; lia).
  reflexivity.
Qed.

Lemma fwalk_diag fuel (D : Z) (err : float) :
  (err_next D D err = inr (true, err) \/ exists e, err_next D D err = inl e) ->
  forall (rev rev2 : bool) (n x0 y0 : Z),
    fwalk fuel rev2 D D (if rev then -1 else 1) n y0 x0 err =
      (map transpose
         (fst (fwalk fuel rev D D (if rev2 then -1 else 1) n x0 y0 err)),
       snd (fwalk fuel rev D D (if rev2 then -1 else 1) n x0 y0 err)).
Proof.
  intros Hstep. induction fuel as [|fuel IH]; intros; cbn [fwalk]; [reflexivity|].
  destruct (0 <? n); [|reflexivity].
  destruct Hstep as [->|[e ->]]; [|reflexivity].
  replace (x0 + (if rev then -1 else 1)) with (if rev then x0 - 1 else x0 + 1)
    by (destruct rev; lia).
  replace (y0 + (if rev2 then -1 else 1)) with (if rev2 then y0 - 1 else y0 + 1)
    by (destruct rev2; lia).
  rewrite IH. reflexivity.
Qed.

(** *** No exception within the float range *)





(** *** Translations and mirror images of a segment *)

Lemma seg_outcome_translate fuel (t s e : pos) :
  seg_outcome fuel (translate t s) (translate t e) =
    (map (translate t) (fst (seg_outcome fuel s e)), snd (seg_outcome fuel s e)).
Proof.
  unfold seg_outcome, translate. cbn [fst snd].
  replace (fst s + fst t >? fst e + fst t) with (fst s >? fst e)
    by (rewrite !Z.gtb_ltb;
        destruct (Z.ltb_spec (fst e) (fst s)),
          (Z.ltb_spec (fst e + fst t) (fst s + fst t)); lia || reflexivity).
  replace (fst s + fst t - (fst e + fst t)) with (fst s - fst e) by lia.
  replace (fst e + fst t - (fst s + fst t)) with (fst e - fst s) by lia.
  replace (snd e + snd t - (snd s + snd t)) with (snd e - snd s) by lia.
  replace (snd s + snd t <? snd e + snd t) with (snd s <? snd e)
    by (destruct (Z.ltb_spec (snd s) (snd e)),
          (Z.ltb_spec (snd s + snd t) (snd e + snd t)); lia || reflexivity).
  destruct (int_truediv _ 2) as [ex|err]; [reflexivity|].
  rewrite fwalk_translate. now destruct t.
Qed.

Lemma seg_outcome_mirror_primary fuel (s e : pos) :
  seg_outcome fuel (mirror_x s) (mirror_x e) =
    (map mirror_x (fst (seg_outcome fuel s e)), snd (seg_outcome fuel s e)).
Proof.
  unfold seg_outcome, mirror_x. cbn [fst snd].
  destruct (Z.eq_dec (fst s) (fst e)) as [Heq|Hne].
  - rewrite Heq.
    replace (- fst e >? - fst e) with false by (now rewrite Z.gtb_ltb, Z.ltb_irrefl).
    replace (fst e >? fst e) with false by (now rewrite Z.gtb_ltb, Z.ltb_irrefl).
    replace (- fst e - - fst e) with 0 by lia.
    replace (fst e - fst e) with 0 by lia.
    destruct (int_truediv 0 2) as [ex|err]; [reflexivity|].
    rewrite (fwalk_single fuel false (negb false) 0 _ _
               (if snd s <? snd e then 1 else -1)) by lia.
    apply fwalk_mirror_primary.
  - replace (- fst s >? - fst e) with (negb (fst s >? fst e))
      by (rewrite !Z.gtb_ltb;
          destruct (Z.ltb_spec (fst e) (fst s)), (Z.ltb_spec (- fst e) (- fst s));
          cbn [negb]; lia || reflexivity).
    replace (if negb (fst s >? fst e) then - fst s - - fst e else - fst e - - fst s)
      with (if fst s >? fst e then fst s - fst e else fst e - fst s)
      by (destruct (fst s >? fst e); cbn [negb]; lia).
    destruct (int_truediv _ 2) as [ex|err]; [reflexivity|].
    apply fwalk_mirror_primary.
Qed.

Lemma seg_outcome_mirror_secondary fuel (s e : pos) :
  seg_outcome fuel (mirror_y s) (mirror_y e) =
    (map mirror_y (fst (seg_outcome fuel s e)), snd (seg_outcome fuel s e)).
Proof.
  unfold seg_outcome, mirror_y. cbn [fst snd].
  set (rev := fst s >? fst e).
  set (dx := if rev then fst s - fst e else fst e - fst s).
  assert (Hdx : 0 <= dx).
  { subst dx rev. destruct (Z.gtb_spec (fst s) (fst e)); lia. }
  destruct (Z.eq_dec (snd s) (snd e)) as [Heq|Hne].
  - rewrite Heq.
    replace (- snd e - - snd e) with 0 by lia.
    replace (snd e - snd e) with 0 by lia. change (Z.abs 0) with 0.
    replace (- snd e <? - snd e) with false by (now rewrite Z.ltb_irrefl).
    replace (snd e <? snd e) with false by (now rewrite Z.ltb_irrefl).
    destruct (int_truediv dx 2) as [ex|err] eqn:Hdiv; [reflexivity|].
    rewrite (fwalk_flat fuel rev dx (-1) (- -1))
      by (eapply int_truediv_2_nonneg; eassumption).
    apply fwalk_mirror_secondary.
  - replace (Z.abs (- snd e - - snd s)) with (Z.abs (snd e - snd s)) by lia.
    replace (if - snd s <? - snd e then 1 else -1)
      with (- (if snd s <? snd e then 1 else -1))
      by (destruct (Z.ltb_spec (snd s) (snd e)), (Z.ltb_spec (- snd s) (- snd e));
          lia || reflexivity).
    destruct (int_truediv dx 2) as [ex|err]; [reflexivity|].
    apply fwalk_mirror_secondary.
Qed.

(** A segment at 45 degrees, walked along the other axis. *)
Lemma seg_outcome_diag fuel (s e : pos) :
  Z.abs (snd e - snd s) = Z.abs (fst e - fst s) ->
  seg_outcome fuel (transpose s) (transpose e) =
    (map transpose (fst (seg_outcome fuel s e)), snd (seg_outcome fuel s e)).
Proof.
  intros Hd. unfold seg_outcome, transpose. cbn [fst snd].
  set (D := Z.abs (fst e - fst s)) in *.
  replace (if snd s >? snd e then snd s - snd e else snd e - snd s) with D
    by (destruct (Z.gtb_spec (snd s) (snd e)); lia).
  replace (if fst s >? fst e then fst s - fst e else fst e - fst s) with D
    by (subst D; destruct (Z.gtb_spec (fst s) (fst e)); lia).
  rewrite Hd.
  destruct (int_truediv D 2) as [ex|err] eqn:Hdiv; [reflexivity|].
  destruct (Z.eq_dec D 0) as [HD0|HD0].
  - rewrite HD0. change (0 + 1) with 1.
    assert (Hs : fst s = fst e /\ snd s = snd e) by lia.
    destruct Hs as [Hx Hy]. rewrite Hx, Hy.
    destruct fuel as [|fuel]; [reflexivity|]. cbn [fwalk].
    change (0 <? 1) with true. cbv iota.
    destruct (err_next 0 0 err) as [ex|[stepped err']]; [reflexivity|].
    destruct fuel; reflexivity.
  - replace (if fst s <? fst e then 1 else -1)
      with (if fst s >? fst e then -1 else 1)
      by (destruct (Z.gtb_spec (fst s) (fst e)), (Z.ltb_spec (fst s) (fst e));
          lia || reflexivity).
    replace (if snd s <? snd e then 1 else -1)
      with (if snd s >? snd e then -1 else 1)
      by (destruct (Z.gtb_spec (snd s) (snd e)), (Z.ltb_spec (snd s) (snd e));
          lia || reflexivity).
    apply fwalk_diag. apply err_next_diag; [lia | exact Hdiv].
Qed.

Lemma map_unswap_translate steep t l :
  map (unswap steep) (map (translate (unswap steep t)) l) =
  map (translate t) (map (unswap steep) l).
Proof.
  rewrite !map_map. apply map_ext. intros [x y]. now destruct steep, t.
Qed.

Lemma goto_outcome_translate fuel (t a b : pos) :
  goto_outcome fuel (translate t a) (translate t b) =
    (map (translate t) (fst (goto_outcome fuel a b)), snd (goto_outcome fuel a b)).
Proof.
  unfold goto_outcome.
  replace (is_steep (translate t a) (translate t b)) with (is_steep a b)
    by (unfold is_steep, translate; cbn [fst snd]; f_equal; f_equal; lia).
  replace (unswap (is_steep a b) (translate t a))
    with (translate (unswap (is_steep a b) t) (unswap (is_steep a b) a))
    by (now destruct (is_steep a b)).
  replace (unswap (is_steep a b) (translate t b))
    with (translate (unswap (is_steep a b) t) (unswap (is_steep a b) b))
    by (now destruct (is_steep a b)).
  rewrite seg_outcome_translate. cbn [fst snd].
  now rewrite map_unswap_translate.
Qed.

Lemma goto_outcome_mirror_x fuel (a b : pos) :
  goto_outcome fuel (mirror_x a) (mirror_x b) =
    (map mirror_x (fst (goto_outcome fuel a b)), snd (goto_outcome fuel a b)).
Proof.
  unfold goto_outcome.
  replace (is_steep (mirror_x a) (mirror_x b)) with (is_steep a b)
    by (unfold is_steep, mirror_x; cbn [fst snd]; f_equal; lia).
  destruct (is_steep a b); cbn [unswap].
  - change (snd (mirror_x a), fst (mirror_x a)) with (mirror_y (snd a, fst a)).
    change (snd (mirror_x b), fst (mirror_x b)) with (mirror_y (snd b, fst b)).
    rewrite seg_outcome_mirror_secondary. cbn [fst snd].
    f_equal. rewrite !map_map. apply map_ext. now intros [x y].
  - rewrite seg_outcome_mirror_primary. cbn [fst snd].
    f_equal. rewrite !map_map. apply map_ext. now intros [x y].
Qed.

Lemma goto_outcome_mirror_y fuel (a b : pos) :
  goto_outcome fuel (mirror_y a) (mirror_y b) =
    (map mirror_y (fst (goto_outcome fuel a b)), snd (goto_outcome fuel a b)).
Proof.
  unfold goto_outcome.
  replace (is_steep (mirror_y a) (mirror_y b)) with (is_steep a b)
    by (unfold is_steep, mirror_y; cbn [fst snd]; f_equal; lia).
  destruct (is_steep a b); cbn [unswap].
  - change (snd (mirror_y a), fst (mirror_y a)) with (mirror_x (snd a, fst a)).
    change (snd (mirror_y b), fst (mirror_y b)) with (mirror_x (snd b, fst b)).
    rewrite seg_outcome_mirror_primary. cbn [fst snd].
    f_equal. rewrite !map_map. apply map_ext. now intros [x y].
  - rewrite seg_outcome_mirror_secondary. cbn [fst snd].
    f_equal. rewrite !map_map. apply map_ext. now intros [x y].
Qed.

Lemma goto_outcome_transpose fuel (a b : pos) :
  goto_outcome fuel (transpose a) (transpose b) =
    (map transpose (fst (goto_outcome fuel a b)), snd (goto_outcome fuel a b)).
Proof.
  destruct a as [ax ay], b as [bx by_].
  unfold goto_outcome, is_steep, transpose. cbn [fst snd].
  destruct (Z.gtb_spec (Z.abs (by_ - ay)) (Z.abs (bx - ax))) as [Hs|Hs];
    destruct (Z.gtb_spec (Z.abs (bx - ax)) (Z.abs (by_ - ay))) as [Ht|Ht];
    try lia; cbn [unswap fst snd].
  - f_equal. rewrite !map_map. apply map_ext. now intros [x y].
  - f_equal. rewrite !map_map. apply map_ext. now intros [x y].
  - change (ay, ax) with (transpose (ax, ay)).
    change (by_, bx) with (transpose (bx, by_)).
    rewrite seg_outcome_diag by (cbn [fst snd]; lia). cbn [fst snd].
    f_equal. rewrite !map_map. apply map_ext. now intros [x y].
Qed.

(** ** Shape of the walk *)

Lemma walk_length n : forall rev dx dy ystep x0 y0 E,
  length (walk n rev dx dy ystep x0 y0 E) = n.
Proof.
  induction n as [|n IH]; intros; cbn [walk]; [reflexivity|].
  destruct (E - 2 * dy <? 0); cbn [length]; now rewrite IH.
Qed.

Lemma goto_pixels_length a b :
  length (goto_pixels a b) = (Z.to_nat (extent a b) + 1)%nat.
Proof.
  destruct a as [x0 y0], b as [x1 y1]. unfold goto_pixels, extent. cbn [fst snd].
  destruct (Z.abs (y1 - y0) >? Z.abs (x1 - x0)) eqn:Hsteep;
    [ destruct (y0 >? y1) eqn:Hrev | destruct (x0 >? x1) eqn:Hrev ];
    rewrite length_map, walk_length;
    rewrite Z.gtb_ltb in *;
    try apply Z.ltb_lt in Hsteep; try apply Z.ltb_ge in Hsteep;
    try apply Z.ltb_lt in Hrev; try apply Z.ltb_ge in Hrev; lia.
Qed.

(** ** Closed form of the walk *)

Lemma walk_closed n : forall (rev : bool) (dx dy ystep x0 y0 E : Z),
  0 < dx -> 0 <= dy <= dx -> 0 <= E < 2 * dx ->
  walk n rev dx dy ystep x0 y0 E =
    map (fun i : nat =>
           (primary rev x0 i,
            y0 + ystep * ((2 * Z.of_nat i * dy - E + 2 * dx - 1) / (2 * dx))))
        (seq 0 n).
Proof.
  induction n as [|n IH]; intros rev dx dy ystep x0 y0 E Hdx Hdy HE; [reflexivity|].
  cbn [walk seq map]. rewrite <- seq_shift, map_map.
  assert (H0 : (2 * Z.of_nat 0 * dy - E + 2 * dx - 1) / (2 * dx) = 0)
    by (apply Z.div_small; lia).
  destruct (E - 2 * dy <? 0) eqn:Hneg;
    [apply Z.ltb_lt in Hneg | apply Z.ltb_ge in Hneg];
    rewrite IH by lia; f_equal;
    try (rewrite H0; unfold primary; destruct rev; f_equal; lia);
    apply map_ext; intros i; f_equal;
    try (unfold primary; destruct rev; lia).
  - replace (2 * Z.of_nat i * dy - (E - 2 * dy + 2 * dx) + 2 * dx - 1)
      with (2 * Z.of_nat (S i) * dy - E + 2 * dx - 1 + (-1) * (2 * dx)) by lia.
    rewrite Z.div_add by lia. lia.
  - f_equal. f_equal. f_equal. lia.
Qed.

Lemma walk_path n (rev : bool) (dx dy ystep x0 y0 : Z) :
  0 <= dy <= dx ->
  (n <= Z.to_nat (dx + 1))%nat ->
  walk n rev dx dy ystep x0 y0 dx = path rev ystep dx dy x0 y0 n.
Proof.
  intros Hdy Hn. destruct (Z.eq_dec dx 0) as [->|Hdx].
  - assert (dy = 0) as -> by lia.
    destruct n as [|[|n]]; [reflexivity| |cbn in Hn; lia].
    cbn [walk path seq map]. change (0 - 2 * 0 <? 0) with false. cbn iota.
    unfold primary, ysteps. change (2 * 0) with 0. rewrite Z.div_0_r.
    destruct rev; f_equal; f_equal; lia.
  - rewrite walk_closed by lia. unfold path, ysteps.
    apply map_ext; intros i.
    now replace (2 * Z.of_nat i * dy - dx + 2 * dx - 1)
      with (2 * Z.of_nat i * dy + dx - 1) by lia.
Qed.

(** ** Walking a segment from its other end *)

Lemma is_steep_sym a b : is_steep b a = is_steep a b.
Proof. unfold is_steep. f_equal; lia. Qed.

(** The walk of a segment in closed form. *)
Lemma goto_walk_path (s e : pos) :
  Z.abs (snd e - snd s) <= Z.abs (fst e - fst s) ->
  goto_walk s e =
    path (fst s >? fst e) (if snd s <? snd e then 1 else -1)
      (Z.abs (fst e - fst s)) (Z.abs (snd e - snd s)) (fst s) (snd s)
      (Z.to_nat (Z.abs (fst e - fst s) + 1)).
Proof.
  intros Hb. unfold goto_walk.
  destruct (Z.gtb_spec (fst s) (fst e)).
  - replace (Z.abs (fst e - fst s)) with (fst s - fst e) in * by lia.
    apply walk_path; lia.
  - replace (Z.abs (fst e - fst s)) with (fst e - fst s) in * by lia.
    apply walk_path; lia.
Qed.

Lemma rev_seq n : rev (seq 0 n) = map (fun i => (n - 1 - i)%nat) (seq 0 n).
Proof.
  induction n as [|n IH]; [reflexivity|].
  rewrite seq_S at 1. rewrite rev_app_distr. cbn [rev app seq map plus].
  rewrite IH, <- seq_shift, map_map. f_equal; [lia|].
  apply map_ext; intros i; lia.
Qed.

(** With no exact tie, the secondary steps seen from the two ends add up to
    the secondary extent. *)
Lemma ysteps_sym D d k :
  0 < D -> 0 <= d <= D -> 0 <= k <= D ->
  (2 * k * d + D) mod (2 * D) <> 0 ->
  ysteps D d (D - k) = d - ysteps D d k.
Proof.
  intros HD Hd Hk Htie. unfold ysteps.
  pose proof (Z.div_mod (2 * k * d + D) (2 * D) ltac:(lia)) as Hdm.
  pose proof (Z.mod_pos_bound (2 * k * d + D) (2 * D) ltac:(lia)) as Hr.
  set (q := (2 * k * d + D) / (2 * D)) in *.
  set (r := (2 * k * d + D) mod (2 * D)) in *.
  assert (Hq : (2 * k * d + D - 1) / (2 * D) = q).
  { symmetry. apply Z.div_unique with (r := r - 1); lia. }
  rewrite Hq. symmetry.
  apply Z.div_unique with (r := 2 * D - 1 - r); lia.
Qed.

(** At an exact tie the two ends disagree by one secondary step. *)
Lemma ysteps_tie D d k :
  0 < D -> 0 <= d <= D -> 0 <= k <= D ->
  (2 * k * d + D) mod (2 * D) = 0 ->
  ysteps D d (D - k) = d - ysteps D d k - 1.
Proof.
  intros HD Hd Hk Htie. unfold ysteps.
  pose proof (Z.div_mod (2 * k * d + D) (2 * D) ltac:(lia)) as Hdm.
  rewrite Htie in Hdm.
  set (q := (2 * k * d + D) / (2 * D)) in *.
  assert (Hq : (2 * k * d + D - 1) / (2 * D) = q - 1).
  { symmetry. apply Z.div_unique with (r := 2 * D - 1); lia. }
  rewrite Hq. symmetry.
  apply Z.div_unique with (r := 2 * D - 1); lia.
Qed.

Lemma ysteps_flat D k : 0 < D -> ysteps D 0 k = 0.
Proof. intros HD. unfold ysteps. apply Z.div_small. lia. Qed.

(** The first and the last pixel are never at a tie. *)
Lemma tie_ends D d k :
  0 < D -> k = 0 \/ k = D -> (2 * k * d + D) mod (2 * D) <> 0.
Proof.
  intros HD [->| ->].
  - rewrite Z.mod_small; lia.
  - replace (2 * D * d + D) with (D + d * (2 * D)) by lia.
    rewrite Z.mod_add by lia. rewrite Z.mod_small; lia.
Qed.

Lemma goto_walk_same (s : pos) : goto_walk s s = [s].
Proof.
  destruct s as [x y]. unfold goto_walk. cbn [fst snd].
  rewrite Z.gtb_ltb, Z.ltb_irrefl, !Z.sub_diag.
  change (Z.to_nat (0 + 1)) with 1%nat. cbn [walk].
  now destruct (0 - 2 * Z.abs 0 <? 0).
Qed.

Lemma goto_walk_reverse (s e : pos) :
  Z.abs (snd e - snd s) <= Z.abs (fst e - fst s) ->
  (forall k, 0 < k < Z.abs (fst e - fst s) ->
     (2 * k * Z.abs (snd e - snd s) + Z.abs (fst e - fst s))
       mod (2 * Z.abs (fst e - fst s)) <> 0) ->
  goto_walk e s = rev (goto_walk s e).
Proof.
  intros Hb Htie.
  destruct (Z.eq_dec (fst s) (fst e)) as [Heq|Hne].
  - assert (e = s) as ->. { destruct s, e; cbn [fst snd] in *; f_equal; lia. }
    now rewrite goto_walk_same.
  - set (D := Z.abs (fst e - fst s)) in *. set (d := Z.abs (snd e - snd s)) in *.
    rewrite (goto_walk_path s e) by exact Hb.
    rewrite (goto_walk_path e s) by lia.
    fold D d.
    replace (Z.abs (fst s - fst e)) with D by lia.
    replace (Z.abs (snd s - snd e)) with d by lia.
    unfold path. rewrite <- map_rev, rev_seq, map_map.
    apply map_ext_in. intros i Hi. apply in_seq in Hi.
    assert (HiD : Z.of_nat (Z.to_nat (D + 1) - 1 - i) = D - Z.of_nat i) by lia.
    rewrite HiD.
    assert (Hsym : ysteps D d (D - Z.of_nat i) = d - ysteps D d (Z.of_nat i)).
    { apply ysteps_sym; try lia.
      destruct (Z.eq_dec (Z.of_nat i) 0) as [H0|H0];
        [apply tie_ends; lia|].
      destruct (Z.eq_dec (Z.of_nat i) D) as [H1|H1];
        [apply tie_ends; lia|].
      apply Htie. lia. }
    assert (Hflat : d = 0 -> ysteps D d (Z.of_nat i) = 0)
      by (intros ->; apply ysteps_flat; lia).
    rewrite Hsym. set (m := ysteps D d (Z.of_nat i)) in *.
    unfold primary. rewrite HiD.
    destruct (Z.gtb_spec (fst e) (fst s)), (Z.gtb_spec (fst s) (fst e)),
      (Z.ltb_spec (snd e) (snd s)), (Z.ltb_spec (snd s) (snd e));
      try lia; f_equal; lia.
Qed.

(** At a tie the pixel of the forward walk is missing from the backward
    walk. *)
Lemma goto_walk_tie (s e : pos) (k : Z) :
  Z.abs (snd e - snd s) <= Z.abs (fst e - fst s) ->
  0 < k < Z.abs (fst e - fst s) ->
  (2 * k * Z.abs (snd e - snd s) + Z.abs (fst e - fst s))
    mod (2 * Z.abs (fst e - fst s)) = 0 ->
  exists px, In px (goto_walk s e) /\ ~ In px (goto_walk e s).
Proof.
  intros Hb Hk Htie.
  set (D := Z.abs (fst e - fst s)) in *. set (d := Z.abs (snd e - snd s)) in *.
  assert (Hd : d <> 0).
  { intros Hd0. rewrite Hd0, Z.mul_0_r, Z.add_0_l, Z.mod_small in Htie; lia. }
  pose proof (ysteps_tie D d k ltac:(lia) ltac:(lia) ltac:(lia) Htie) as Hm.
  exists (primary (fst s >? fst e) (fst s) (Z.to_nat k),
          snd s + (if snd s <? snd e then 1 else -1) * ysteps D d k).
  rewrite (goto_walk_path s e) by exact Hb.
  rewrite (goto_walk_path e s) by lia.
  fold D d.
  replace (Z.abs (fst s - fst e)) with D by lia.
  replace (Z.abs (snd s - snd e)) with d by lia.
  unfold path. split.
  - apply in_map_iff. exists (Z.to_nat k). split.
    + now rewrite Z2Nat.id by lia.
    + apply in_seq. lia.
  - intros Hin. apply in_map_iff in Hin. destruct Hin as [j [Hj Hjn]].
    apply in_seq in Hjn. injection Hj as Hx Hy.
    unfold primary in Hx.
    assert (HjD : Z.of_nat j = D - k).
    { destruct (Z.gtb_spec (fst e) (fst s)), (Z.gtb_spec (fst s) (fst e)); lia. }
    rewrite HjD, Hm in Hy. set (m := ysteps D d k) in *.
    destruct (Z.ltb_spec (snd e) (snd s)), (Z.ltb_spec (snd s) (snd e)); lia.
Qed.

(** ** Ties *)

Lemma tie_free_true (a b : pos) :
  tie_free a b = true ->
  forall k, 0 < k < extent a b ->
    (2 * k * Z.min (Z.abs (fst b - fst a)) (Z.abs (snd b - snd a)) + extent a b)
      mod (2 * extent a b) <> 0.
Proof.
  unfold tie_free. intros H k Hk. rewrite forallb_forall in H.
  specialize (H (Z.to_nat k)). rewrite in_seq in H.
  specialize (H ltac:(lia)). unfold tie_at in H. rewrite Z2Nat.id in H by lia.
  apply negb_true_iff, Z.eqb_neq in H. exact H.
Qed.

Lemma forallb_false {A} (f : A -> bool) (l : list A) :
  forallb f l = false -> exists x, In x l /\ f x = false.
Proof.
  induction l as [|x l IH]; cbn [forallb]; [discriminate|].
  destruct (f x) eqn:Hx; cbn [andb].
  - intros H. destruct (IH H) as [y [Hy Hfy]]. exists y. split; [now right|exact Hfy].
  - intros _. exists x. split; [now left|exact Hx].
Qed.

Lemma tie_free_false (a b : pos) :
  tie_free a b = false ->
  exists k, 0 < k < extent a b /\
    (2 * k * Z.min (Z.abs (fst b - fst a)) (Z.abs (snd b - snd a)) + extent a b)
      mod (2 * extent a b) = 0.
Proof.
  unfold tie_free. intros H. apply forallb_false in H. destruct H as [k [Hk Hf]].
  apply in_seq in Hk. apply negb_false_iff in Hf. unfold tie_at in Hf.
  apply Z.eqb_eq in Hf. exists (Z.of_nat k). split; [lia|exact Hf].
Qed.

(** ** Swapping the endpoints of a segment *)

Lemma extent_sym a b : extent b a = extent a b.
Proof. unfold extent. lia. Qed.

Lemma goto_fuel_sym a b : goto_fuel b a = goto_fuel a b.
Proof. unfold goto_fuel. now rewrite extent_sym. Qed.

Lemma unswap_inj steep px qx : unswap steep px = unswap steep qx -> px = qx.
Proof.
  destruct steep, px, qx; cbn [unswap fst snd]; intros H; injection H; congruence.
Qed.

Lemma goto_pixels_reverse (a b : pos) :
  tie_free a b = true -> goto_pixels b a = rev (goto_pixels a b).
Proof.
  intros Hfree. rewrite !goto_pixels_walk, (is_steep_sym a b), <- map_rev. f_equal.
  destruct (unswap_extent a b) as [HD Hd].
  apply goto_walk_reverse.
  - apply unswap_steep_bound.
  - intros k Hk. rewrite HD, Hd in *. now apply tie_free_true.
Qed.

Lemma goto_pixels_tie (a b : pos) :
  tie_free a b = false ->
  exists px, In px (goto_pixels a b) /\ ~ In px (goto_pixels b a).
Proof.
  intros Htie. apply tie_free_false in Htie. destruct Htie as [k [Hk Hmod]].
  destruct (unswap_extent a b) as [HD Hd].
  destruct (goto_walk_tie (unswap (is_steep a b) a) (unswap (is_steep a b) b) k)
    as [px [Hin Hout]].
  - apply unswap_steep_bound.
  - now rewrite HD.
  - now rewrite HD, Hd.
  - exists (unswap (is_steep a b) px). rewrite !goto_pixels_walk, (is_steep_sym a b). split.
    + now apply in_map.
    + intros H. apply in_map_iff in H. destruct H as [qx [Heq Hq]].
      apply unswap_inj in Heq. now subst qx.
Qed.

(** Segments that certainly have no tie: an odd dominant extent, and the
    horizontal, vertical and diagonal segments. *)
Lemma tie_free_sufficient (a b : pos) :
  Z.odd (extent a b) = true \/ fst a = fst b \/ snd a = snd b \/
  Z.abs (fst b - fst a) = Z.abs (snd b - snd a) ->
  tie_free a b = true.
Proof.
  intros H. destruct (tie_free a b) eqn:Hfree; [reflexivity|exfalso].
  apply tie_free_false in Hfree. destruct Hfree as [k [Hk Hmod]].
  set (D := extent a b) in *.
  set (d := Z.min (Z.abs (fst b - fst a)) (Z.abs (snd b - snd a))) in *.
  destruct H as [Hodd | Hflat].
  - apply Z.odd_spec in Hodd. destruct Hodd as [m Hm].
    pose proof (Z.div_mod (2 * k * d + D) (2 * D) ltac:(lia)) as Hdm.
    rewrite Hmod in Hdm. set (q := (2 * k * d + D) / (2 * D)) in *. lia.
  - assert (Hd : d = 0 \/ d = D) by (unfold d, D, extent; lia).
    destruct Hd as [Hd | Hd]; rewrite Hd in Hmod.
    + rewrite Z.mul_0_r, Z.add_0_l, Z.mod_small in Hmod; lia.
    + replace (2 * k * D + D) with (D + k * (2 * D)) in Hmod by lia.
      rewrite Z.mod_add, Z.mod_small in Hmod; lia.
Qed.

(** * The line rasterizer: claims *)



Lemma exact_range_sym a b : exact_range a b -> exact_range b a.
Proof. unfold exact_range. now rewrite extent_sym. Qed.


(** C4, as amended.  For a segment shorter than [2 ^ 52], where the float
    accumulator is exact: walking it from its other end emits the same
    pixels exactly when no inner pixel is at a tie (a pixel [k] steps from
    the start with [2*k*d + D] a multiple of [2*D], for [D] the longer and
    [d] the shorter extent of the segment); the emission order is then
    reversed.  There is no tie when [D] is odd, nor on horizontal, vertical
    and diagonal segments. *)
Theorem goto_endpoint_swap (fuel : nat) (a b : pos) (p q : Paint) :
  (goto_fuel a b <= fuel)%nat -> exact_range a b ->
  let fwd := pixels (fst (_goto fuel (Some a) (Some b) p)) in
  let bwd := pixels (fst (_goto fuel (Some b) (Some a) q)) in
  (list_to_set fwd =@{gset pos} list_to_set bwd <-> tie_free a b = true) /\
  (tie_free a b = true -> bwd = rev fwd) /\
  (Z.odd (extent a b) = true \/ fst a = fst b \/ snd a = snd b \/
   Z.abs (fst b - fst a) = Z.abs (snd b - snd a) ->
   tie_free a b = true).
Proof.
  intros Hfuel Hex fwd bwd. subst fwd bwd.
  rewrite (pixels_goto fuel a b p Hfuel Hex).
  rewrite (pixels_goto fuel b a q)
    by first [now rewrite (goto_fuel_sym a b) | now apply exact_range_sym].
  split; [|split].
  - split.
    + intros Hset. destruct (tie_free a b) eqn:Hfree; [reflexivity|exfalso].
      destruct (goto_pixels_tie a b Hfree) as [px [Hin Hout]].
      apply Hout. apply list_elem_of_In, (elem_of_list_to_set (C := gset pos)).
      rewrite <- Hset. now apply elem_of_list_to_set, list_elem_of_In.
    + intros Hfree. rewrite (goto_pixels_reverse a b Hfree).
      apply set_eq. intros px. rewrite !elem_of_list_to_set, !list_elem_of_In.
      apply in_rev.
  - apply goto_pixels_reverse.
  - apply tie_free_sufficient.
Qed.

Lemma goto_endpoint_swap_witness :
  (goto_fuel (0, 0)%Z (5, 2)%Z <= 7)%nat /\
  exact_range (0, 0) (5, 2) /\
  pixels (fst (_goto 7 (Some (5, 2)) (Some (0, 0)) (Paint_init 320 240))) =
  rev (pixels (fst (_goto 7 (Some (0, 0)) (Some (5, 2)) (Paint_init 320 240)))).
Proof.
  assert (H : (goto_fuel (0, 0)%Z (5, 2)%Z <= 7)%nat) by (vm_compute; lia).
  assert (Hex : exact_range (0, 0) (5, 2)) by (vm_compute; reflexivity).
  split; [exact H|]. split; [exact Hex|].
  apply (goto_endpoint_swap 7 (0, 0) (5, 2) (Paint_init 320 240) (Paint_init 320 240)
           H Hex).
  reflexivity.
Defined.

(** C4 as stated fails: from (0,0) to (2,1) the walk emits (1,0), from
    (2,1) to (0,0) it emits (1,1) instead. *)
Lemma goto_endpoint_swap_counterexample :
  list_to_set (pixels (fst (_goto 10 (Some (0, 0)) (Some (2, 1)) (Paint_init 320 240))))
  ≠@{gset pos}
  list_to_set (pixels (fst (_goto 10 (Some (2, 1)) (Some (0, 0)) (Paint_init 320 240)))).
Proof.
  intros H.
  assert (Hin : (1, 0) ∈@{gset pos}
    list_to_set (pixels (fst (_goto 10 (Some (0, 0)) (Some (2, 1)) (Paint_init 320 240))))).
  { apply elem_of_list_to_set, list_elem_of_In. vm_compute. tauto. }
  rewrite H in Hin. apply elem_of_list_to_set, list_elem_of_In in Hin.
  vm_compute in Hin. intuition discriminate.
Qed.

(** C7.  No two pixels of a segment share the coordinate of its dominant
    axis: the x coordinate when the segment is not steep, the y coordinate
    when it is. *)
Theorem goto_one_pixel_per_step (fuel : nat) (a b : pos) (p : Paint) :
  (goto_fuel a b <= fuel)%nat ->
  let px := pixels (fst (_goto fuel (Some a) (Some b) p)) in
  (Z.abs (snd b - snd a) <= Z.abs (fst b - fst a) -> List.NoDup (map fst px)) /\
  (Z.abs (snd b - snd a) > Z.abs (fst b - fst a) -> List.NoDup (map snd px)).
Proof.
  intros Hfuel px. subst px. rewrite pixels_goto_outcome.
  unfold goto_outcome, is_steep. cbn [fst].
  destruct (Z.gtb_spec (Z.abs (snd b - snd a)) (Z.abs (fst b - fst a))) as [Hs|Hs];
    (split; [intros Hle | intros Hgt]; try lia);
    rewrite map_map.
  - erewrite map_ext; [apply seg_outcome_primary_NoDup|]. now intros [x y].
  - erewrite map_ext; [apply seg_outcome_primary_NoDup|]. now intros [x y].
Qed.

Lemma goto_one_pixel_per_step_witness :
  (goto_fuel (3, 1)%Z (0, 9)%Z <= 12)%nat /\
  List.NoDup (map snd (pixels (fst (_goto 12 (Some (3, 1)) (Some (0, 9)) (Paint_init 320 240))))).
Proof.
  assert (H : (goto_fuel (3, 1)%Z (0, 9)%Z <= 12)%nat) by (vm_compute; lia).
  split; [exact H|].
  apply (goto_one_pixel_per_step 12 (3, 1) (0, 9) (Paint_init 320 240) H).
  vm_compute. reflexivity.
Defined.

(** C8.  The pixels of the four sample segments, in emission order. *)
Theorem goto_examples (fuel : nat) (p : Paint) :
  (7 <= fuel)%nat ->
  pixels (fst (_goto fuel (Some (0, 0)) (Some (5, 0)) p)) =
    [(0, 0); (1, 0); (2, 0); (3, 0); (4, 0); (5, 0)] /\
  pixels (fst (_goto fuel (Some (0, 0)) (Some (0, 5)) p)) =
    [(0, 0); (0, 1); (0, 2); (0, 3); (0, 4); (0, 5)] /\
  pixels (fst (_goto fuel (Some (0, 0)) (Some (3, 3)) p)) =
    [(0, 0); (1, 1); (2, 2); (3, 3)] /\
  pixels (fst (_goto fuel (Some (0, 0)) (Some (0, 0)) p)) = [(0, 0)].
Proof.
  intros Hfuel.
  rewrite !pixels_goto by first [vm_compute; lia | vm_compute; reflexivity].
  repeat split; reflexivity.
Qed.

Lemma goto_examples_witness :
  (7 <= 7)%nat /\
  pixels (fst (_goto 7 (Some (0, 0)) (Some (3, 3)) (Paint_init 320 240))) =
    [(0, 0); (1, 1); (2, 2); (3, 3)].
Proof.
  split; [lia|].
  apply (goto_examples 7 (Paint_init 320 240)). lia.
Defined.





(** * The control loop *)

(** ** What each step of a tick does *)

Lemma _update_run (polled : Sample) (p : Paint) :
  _update polled p =
    ([Debug "Update: %s->%s, %s->%s"
        [VBool (_pressed p); VBool (fst polled);
         VLoc (_location p); VLoc (snd polled)]],
     Ok tt (set_input (fst polled) (_pressed p) (snd polled) (_location p) p)).
Proof. reflexivity. Qed.

Lemma _handle_press_run (a : pos) (p : Paint) :
  _handle_press (Some a) p =
    ([HandlePress (Some a); Debug "Pressed!" [];
      SetPixel (fst a) (snd a) (_pencolor p); Poke],
     Ok tt (plot_state (fst a) (snd a) (_pencolor p) p)).
Proof.
  destruct a as [x y]. unfold _handle_press.
  unfold bind at 1, emit at 1. unfold bind at 1, emit at 1.
  unfold bind at 1, getitem at 1, ret at 1. unfold bind at 1, getitem at 1, ret at 1.
  unfold bind at 1, get at 1. unfold bind at 1.
  rewrite _plot_run. reflexivity.
Qed.

Lemma _handle_press_None (p : Paint) :
  _handle_press None p =
    ([HandlePress None; Debug "Pressed!" []], Exc TypeError p).
Proof. reflexivity. Qed.

Lemma _handle_release_run (l : option pos) (p : Paint) :
  _handle_release l p =
    ([HandleRelease l; Debug "Released!" []], Ok tt p).
Proof. reflexivity. Qed.

Lemma _handle_motion_run (fuel : nat) (a b : pos) (p : Paint) :
  (goto_fuel a b <= fuel)%nat -> exact_range a b ->
  _handle_motion fuel (Some a) (Some b) p =
    (HandleMotion (Some a) (Some b)
       :: Debug "Moved: (%d, %d) -> (%d, %d)"
            [VInt (fst a); VInt (snd a); VInt (fst b); VInt (snd b)]
       :: Debug "* GoTo from (%d, %d) to (%d, %d)"
            [VInt (fst a); VInt (snd a); VInt (fst b); VInt (snd b)]
       :: flat_map (px_events (_pencolor p)) (goto_pixels a b),
     Ok tt (fold_left (paint_px (_pencolor p)) (goto_pixels a b) p)).
Proof.
  intros Hfuel Hex. unfold _handle_motion.
  unfold bind at 1, emit at 1.
  destruct a as [ax ay], b as [bx by_].
  unfold bind at 1, getitem at 1, ret at 1. unfold bind at 1, getitem at 1, ret at 1.
  unfold bind at 1, getitem at 1, ret at 1. unfold bind at 1, getitem at 1, ret at 1.
  unfold bind at 1, emit at 1.
  rewrite _goto_run by assumption. reflexivity.
Qed.

(** Only handler entries are handler calls: neither [_plot] nor the loop of
    [_goto] adds any, whatever the number of iterations allowed. *)
Lemma handler_calls_app t1 t2 :
  handler_calls (t1 ++ t2) = handler_calls t1 ++ handler_calls t2.
Proof. apply List.filter_app. Qed.

Lemma handler_calls_px_events c l : handler_calls (flat_map (px_events c) l) = [].
Proof.
  induction l as [|px l IH]; [reflexivity|].
  cbn [flat_map]. now rewrite handler_calls_app, IH.
Qed.

Lemma _goto_no_calls (fuel : nat) (a b : pos) (p : Paint) :
  handler_calls (fst (_goto fuel (Some a) (Some b) p)) = [].
Proof.
  rewrite _goto_outcome. cbn [fst].
  change (handler_calls (?e :: ?t)) with (handler_calls t).
  apply handler_calls_px_events.
Qed.

Lemma snd_bind {A B} (m : M A) (f : A -> M B) (p : Paint) :
  snd (bind m f p) =
    match snd (m p) with
    | Ok a q => snd (f a q)
    | Exc e q => Exc e q
    | OutOfFuel => OutOfFuel
    end.
Proof.
  unfold bind. destruct (m p) as [t [a q|e q|]]; cbn [snd]; try reflexivity.
  now destruct (f a q).
Qed.

Lemma fst_bind {A B} (m : M A) (f : A -> M B) (p : Paint) :
  fst (bind m f p) =
    fst (m p) ++ match snd (m p) with Ok a q => fst (f a q) | _ => [] end.
Proof.
  unfold bind. destruct (m p) as [t [a q|e q|]]; cbn [fst snd].
  - now destruct (f a q).
  - now rewrite app_nil_r.
  - now rewrite app_nil_r.
Qed.

Lemma _handle_motion_calls (fuel : nat) (a b : pos) (p : Paint) :
  handler_calls (fst (_handle_motion fuel (Some a) (Some b) p)) =
    [HandleMotion (Some a) (Some b)].
Proof.
  unfold _handle_motion.
  rewrite fst_bind. cbn [emit fst snd app].
  destruct a as [ax ay], b as [bx by_].
  rewrite fst_bind. cbn [getitem ret fst snd app].
  rewrite fst_bind. cbn [getitem ret fst snd app].
  rewrite fst_bind. cbn [getitem ret fst snd app].
  rewrite fst_bind. cbn [getitem ret fst snd app].
  rewrite fst_bind. cbn [emit fst snd app].
  cbn [handler_calls List.filter is_handler_call].
  change (List.filter is_handler_call ?t) with (handler_calls t).
  now rewrite _goto_no_calls.
Qed.

(** ** The events of a tick *)

Lemma _did_move_ne (p : Paint) (a b : pos) :
  _last_location p = Some a -> _location p = Some b ->
  _did_move p = bool_decide (a <> b).
Proof.
  intros Ha Hb. unfold _did_move. rewrite Ha, Hb.
  destruct a as [ax ay], b as [bx by_]. cbn [fst snd].
  destruct (Z.eqb_spec bx ax), (Z.eqb_spec by_ ay); cbn [negb orb];
    symmetry; (apply bool_decide_eq_true || apply bool_decide_eq_false); congruence.
Qed.

Lemma plot_state_input x y c p :
  _pressed (plot_state x y c p) = _pressed p /\
  _last_pressed (plot_state x y c p) = _last_pressed p /\
  _location (plot_state x y c p) = _location p /\
  _last_location (plot_state x y c p) = _last_location p.
Proof. unfold plot_state. now destruct (Bitmap_setitem _ _ _ _). Qed.


Lemma handler_calls_tick (fuel : nat) (cur : Sample) (p : Paint) :
  handler_calls (fst (tick fuel cur p)) = classify (_pressed p, _location p) cur.
Proof.
  destruct cur as [c l]. unfold tick, classify. cbn [fst snd].
  rewrite fst_bind, _update_run. cbn [fst snd].
  set (p1 := set_input c (_pressed p) l (_location p) p).
  rewrite fst_bind. cbn [get fst snd app id].
  rewrite fst_bind.
  assert (Hmove : forall q, _pressed q = c -> _location q = l ->
            _last_location q = _location p ->
            handler_calls (fst (bind
              (if _did_move q && _pressed q
               then _handle_motion fuel (_last_location q) (_location q)
               else ret tt) (fun _ => emit (Sleep 100)) q)) =
            match _location p, l with
            | Some a, Some b =>
                if bool_decide (a <> b) && c
                then [HandleMotion (Some a) (Some b)] else []
            | _, _ => []
            end).
  { intros q Hc Hl Hll. rewrite fst_bind, handler_calls_app.
    assert (Htail : forall r : result unit,
              handler_calls match r with
                            | Ok _ q' => fst (emit (Sleep 100) q')
                            | _ => []
                            end = []) by (now intros [[] ?|? ?|]).
    rewrite Htail, app_nil_r.
    destruct (_location p) as [a|] eqn:Hlp, l as [b|].
    - rewrite (_did_move_ne q a b Hll Hl), Hc, Hll, Hl.
      destruct (bool_decide (a <> b) && c); [apply _handle_motion_calls|reflexivity].
    - unfold _did_move. now rewrite Hl.
    - unfold _did_move. rewrite Hl, Hll. reflexivity.
    - unfold _did_move. now rewrite Hl. }
  unfold _was_just_pressed, _was_just_released.
  change (_pressed p1) with c. change (_last_pressed p1) with (_pressed p).
  change (_location p1) with l.
  destruct (c && negb (_pressed p)) eqn:Hpress;
    [|destruct (negb c && _pressed p) eqn:Hrel].
  - destruct l as [a|].
    + rewrite _handle_press_run. cbn [fst snd].
      rewrite fst_bind. cbn [get fst snd app id].
      cbn [handler_calls List.filter is_handler_call].
      change (List.filter is_handler_call ?t) with (handler_calls t).
      destruct (plot_state_input (fst a) (snd a) (_pencolor p1) p1) as (H1 & H2 & H3 & H4).
      rewrite Hmove by assumption. reflexivity.
    + rewrite _handle_press_None. cbn [fst snd app].
      cbn [handler_calls List.filter is_handler_call].
      now destruct (_location p).
  - rewrite _handle_release_run. cbn [fst snd].
    rewrite fst_bind. cbn [get fst snd app id].
    cbn [handler_calls List.filter is_handler_call].
    change (List.filter is_handler_call ?t) with (handler_calls t).
    rewrite Hmove by reflexivity. reflexivity.
  - cbn [ret fst snd].
    rewrite fst_bind. cbn [get fst snd app id].
    cbn [handler_calls List.filter is_handler_call].
    change (List.filter is_handler_call ?t) with (handler_calls t).
    rewrite Hmove by reflexivity. reflexivity.
Qed.

(** ** Full effect of the three kinds of tick *)


Lemma tick_release (fuel : nat) (l : option pos) (p : Paint) :
  _pressed p = true ->
  tick fuel (false, l) p =
    ([Debug "Update: %s->%s, %s->%s"
        [VBool true; VBool false; VLoc (_location p); VLoc l];
      HandleRelease l; Debug "Released!" []; Sleep 100],
     Ok tt (set_input false true l (_location p) p)).
Proof.
  intros Hpr. unfold tick.
  rewrite (bind_step _ _ _ _ _ _ (_update_run _ p)). cbn [fst snd].
  rewrite Hpr.
  set (p1 := set_input false true l (_location p) p).
  unfold bind at 1, get at 1, id.
  change (_was_just_pressed p1) with false.
  change (_was_just_released p1) with true. cbn iota.
  rewrite (bind_step _ _ _ _ _ _ (_handle_release_run l p1)).
  unfold bind at 1, get at 1.
  change (_pressed p1) with false. rewrite andb_false_r. reflexivity.
Qed.

(** ** The framebuffer after a sequence of pixel writes *)

Lemma plot_state_bitmap x y c p :
  _fg_bitmap (plot_state x y c p) =
    if in_bounds (_fg_bitmap p) x y
    then mkBitmap (width (_fg_bitmap p)) (height (_fg_bitmap p))
           (<[(x, y) := c]> (cells (_fg_bitmap p)))
    else _fg_bitmap p.
Proof.
  unfold plot_state, Bitmap_setitem. now destruct (in_bounds _ _ _).
Qed.


Lemma in_bounds_dims b b' x y :
  width b' = width b -> height b' = height b ->
  in_bounds b' x y = in_bounds b x y.
Proof. intros Hw Hh. unfold in_bounds. now rewrite Hw, Hh. Qed.

Lemma paint_px_dims c p px :
  width (_fg_bitmap (paint_px c p px)) = width (_fg_bitmap p) /\
  height (_fg_bitmap (paint_px c p px)) = height (_fg_bitmap p).
Proof.
  unfold paint_px. cbn [set_xy _fg_bitmap]. rewrite plot_state_bitmap.
  now destruct (in_bounds _ _ _).
Qed.

Lemma paint_px_input c p px :
  _pressed (paint_px c p px) = _pressed p /\
  _location (paint_px c p px) = _location p.
Proof.
  unfold paint_px. cbn [set_xy _pressed _location].
  destruct (plot_state_input (fst px) (snd px) c p) as (-> & _ & -> & _). now split.
Qed.

Lemma fold_paint_px_pencolor (c : Z) (l : list pos) :
  forall p : Paint, _pencolor (fold_left (paint_px c) l p) = _pencolor p.
Proof.
  induction l as [|px l IH]; intros p; cbn [fold_left]; [reflexivity|].
  now rewrite IH, paint_px_pencolor.
Qed.

(** After the writes of a pixel list, a cell holds the colour when it is one
    of the pixels and lies inside the bitmap, and is untouched otherwise. *)
Lemma fold_paint_px (c : Z) (l : list pos) :
  forall p : Paint,
    let q := fold_left (paint_px c) l p in
    width (_fg_bitmap q) = width (_fg_bitmap p) /\
    height (_fg_bitmap q) = height (_fg_bitmap p) /\
    _pressed q = _pressed p /\
    _location q = _location p /\
    forall k : pos,
      cells (_fg_bitmap q) !! k =
        if bool_decide (k ∈ l) && in_bounds (_fg_bitmap p) (fst k) (snd k)
        then Some c else cells (_fg_bitmap p) !! k.
Proof.
  induction l as [|px l IH]; intros p; cbn [fold_left].
  - repeat split; reflexivity.
  - destruct (IH (paint_px c p px)) as (Hw & Hh & Hpr & Hloc & Hcells).
    destruct (paint_px_dims c p px) as [Hw1 Hh1].
    destruct (paint_px_input c p px) as [Hpr1 Hloc1].
    repeat split; try congruence. intros k. rewrite Hcells.
    rewrite (in_bounds_dims (_fg_bitmap p) (_fg_bitmap (paint_px c p px)))
      by assumption.
    unfold paint_px. cbn [set_xy _fg_bitmap]. rewrite plot_state_bitmap.
    destruct (decide (k = px)) as [->|Hne].
    + rewrite (bool_decide_eq_true_2 (px ∈ px :: l)) by apply list_elem_of_here.
      destruct px as [x y]. cbn [fst snd andb].
      destruct (in_bounds (_fg_bitmap p) x y) eqn:Hin.
      * rewrite andb_true_r. cbn [cells]. rewrite lookup_insert_eq.
        now destruct (bool_decide _).
      * now rewrite andb_false_r.
    + assert (Heq : bool_decide (k ∈ px :: l) = bool_decide (k ∈ l)).
      { apply bool_decide_ext. rewrite elem_of_cons. tauto. }
      rewrite Heq.
      destruct (bool_decide (k ∈ l) && in_bounds (_fg_bitmap p) k.1 k.2); [reflexivity|].
      destruct (in_bounds (_fg_bitmap p) px.1 px.2); [|reflexivity].
      cbn [cells]. apply lookup_insert_ne. destruct px; cbn [fst snd]; congruence.
Qed.

(** * The control loop: claims *)

(** C1, as amended.  A tick whose sample has contact but no position never
    writes to the framebuffer and never enters the release or the motion
    handler.  When the previous sample had contact, no handler is entered
    and the tick completes, logging only its "Update" line.  When the
    previous sample had no contact, the press handler is entered with no
    position and the tick ends in an uncaught [TypeError]. *)
Theorem tick_contact_without_position (fuel : nat) (p : Paint) :
  let p' := set_input true (_pressed p) None (_location p) p in
  _fg_bitmap p' = _fg_bitmap p /\
  tick fuel (true, None) p =
    if _pressed p
    then ([Debug "Update: %s->%s, %s->%s"
             [VBool true; VBool true; VLoc (_location p); VLoc None];
           Sleep 100],
          Ok tt p')
    else ([Debug "Update: %s->%s, %s->%s"
             [VBool false; VBool true; VLoc (_location p); VLoc None];
           HandlePress None; Debug "Pressed!" []],
          Exc TypeError p').
Proof.
  split; [reflexivity|].
  unfold tick. rewrite (bind_step _ _ _ _ _ _ (_update_run _ p)). cbn [fst snd].
  destruct (_pressed p); reflexivity.
Qed.

(** C1 as stated fails: on the first tick after start-up, a sample with
    contact and no position enters the press handler and is fatal. *)
Lemma tick_contact_without_position_counterexample :
  In (HandlePress None) (fst (tick 10 (true, None) (Paint_init 320 240))) /\
  snd (tick 10 (true, None) (Paint_init 320 240)) =
    Exc TypeError (set_input true false None None (Paint_init 320 240)).
Proof. split; [vm_compute; tauto | reflexivity]. Qed.

(** C2, as amended.  When the previous sample had contact and the current
    one has none, the release handler is entered exactly once and no other
    handler is; the position it is passed is the one of the current sample,
    [self._location]. *)
Theorem tick_release_once (fuel : nat) (p : Paint) (l : option pos) :
  _pressed p = true ->
  handler_calls (fst (tick fuel (false, l) p)) = [HandleRelease l].
Proof.
  intros Hpr. rewrite handler_calls_tick. unfold classify. cbn [fst snd].
  rewrite Hpr. cbn [andb negb].
  destruct (_location p), l; rewrite ?andb_false_r; reflexivity.
Qed.

Lemma tick_release_once_witness :
  _pressed (set_input true false (Some (3, 4)) None (Paint_init 320 240)) = true /\
  handler_calls
    (fst (tick 0 (false, None)
            (set_input true false (Some (3, 4)) None (Paint_init 320 240)))) =
    [HandleRelease None].
Proof.
  split; [reflexivity|].
  apply (tick_release_once 0 (set_input true false (Some (3, 4)) None (Paint_init 320 240)) None).
  reflexivity.
Defined.

(** C2 as stated fails: after a press at (3,4), the release handler is
    passed [None], the position of the releasing sample, not (3,4). *)
Lemma tick_release_once_counterexample :
  handler_calls
    (fst (run 10 [(true, Some (3, 4)); (false, None)] (Paint_init 320 240))) =
    [HandlePress (Some (3, 4)); HandleRelease None] /\
  ~ In (HandleRelease (Some (3, 4)))
      (fst (run 10 [(true, Some (3, 4)); (false, None)] (Paint_init 320 240))).
Proof.
  split; [reflexivity|]. vm_compute. intuition discriminate.
Qed.

(** C3, as amended.  The handler entries of a tick are those of [classify]:
    the press handler iff the current sample has contact and the previous
    one had none, with the current position; the motion handler iff the
    current sample has contact and both positions are present and differ in
    an axis, with the previous and the current position -- the contact of
    the previous sample is not consulted, and it is implied when the
    previous sample has a position only together with contact; no handler
    when neither sample has contact, or when both have contact and the same
    position. *)
Theorem tick_classification (fuel : nat) (p : Paint) (cur : Sample) :
  let prev : Sample := (_pressed p, _location p) in
  let calls := handler_calls (fst (tick fuel cur p)) in
  calls = classify prev cur /\
  (forall l, In (HandlePress l) calls <->
     fst cur = true /\ fst prev = false /\ l = snd cur) /\
  (forall s e, In (HandleMotion s e) calls <->
     fst cur = true /\ s = snd prev /\ e = snd cur /\
     exists a b, s = Some a /\ e = Some b /\
       (fst a <> fst b \/ snd a <> snd b)) /\
  ((snd prev <> None -> fst prev = true) ->
   forall s e, In (HandleMotion s e) calls ->
     fst prev = true /\ fst cur = true) /\
  (fst prev = false /\ fst cur = false -> calls = []) /\
  (fst prev = true /\ fst cur = true /\ snd prev = snd cur -> calls = []).
Proof.
  intros prev calls. subst prev calls. rewrite handler_calls_tick.
  destruct cur as [c l]. unfold classify. cbn [fst snd].
  assert (Hne : forall a b : pos, a <> b <-> (fst a <> fst b \/ snd a <> snd b)).
  { intros [ax ay] [bx by_]. cbn [fst snd]. split.
    - intros H. destruct (Z.eq_dec ax bx), (Z.eq_dec ay by_); try tauto. congruence.
    - intros H Heq. injection Heq as -> ->. tauto. }
  split; [reflexivity|].
  split; [|split; [|split; [|split]]].
  - intros l'. destruct c, (_pressed p), (_location p) as [a|], l as [b|];
      cbn [andb negb app]; try destruct (bool_decide (a <> b)); cbn [andb app In];
      split; intros H; intuition (try discriminate; try congruence).
  - intros s e. destruct c, (_pressed p), (_location p) as [a|], l as [b|];
      cbn [andb negb app]; try destruct (bool_decide_reflect (a <> b)) as [Hab|Hab];
      cbn [andb app In];
      (split; [intros H | intros (Hc & -> & -> & a' & b' & Ha & Hb & Hd)]);
      try discriminate; try (intuition discriminate).
    all: try (injection Ha as <-; injection Hb as <-).
    all: try (destruct H as [H|[H|[]]]; try discriminate; injection H as <- <-;
              repeat split; try reflexivity; exists a, b;
              repeat split; try reflexivity; now apply Hne).
    all: try (destruct H as [H|[]]; try discriminate; injection H as <- <-;
              repeat split; try reflexivity; exists a, b;
              repeat split; try reflexivity; now apply Hne).
    all: try (exfalso; apply Hab; now apply Hne).
    all: try (apply Hne in Hd; contradiction).
    all: auto.
  - intros Hwf s e. destruct c, (_pressed p), (_location p) as [a|], l as [b|];
      cbn [andb negb app]; try destruct (bool_decide (a <> b)); cbn [andb app In];
      intros H; try (intuition discriminate);
      try (split; [apply Hwf; discriminate | reflexivity]).
  - intros [-> ->]. cbn [andb negb app].
    destruct (_location p), l; rewrite ?andb_false_r; reflexivity.
  - intros (-> & -> & ->). cbn [andb negb app].
    destruct l as [b|]; [|reflexivity].
    rewrite bool_decide_eq_false_2 by tauto. reflexivity.
Qed.

(** C3 as stated fails: a previous sample without contact that still has a
    position, followed by a touch elsewhere, enters the motion handler
    although the previous sample had no contact. *)
Lemma tick_classification_counterexample :
  handler_calls
    (fst (run 10 [(false, Some (0, 0)); (true, Some (1, 1))] (Paint_init 320 240))) =
    [HandlePress (Some (1, 1)); HandleMotion (Some (0, 0)) (Some (1, 1))].
Proof. reflexivity. Qed.

(** ** The bitmap after a list of pixel writes *)







Lemma goto_pixels_points (a b : pos) :
  goto_pixels a b = map (goto_point a b) (seq 0 (Z.to_nat (extent a b) + 1)).
Proof.
  rewrite goto_pixels_walk.
  rewrite goto_walk_path by apply unswap_steep_bound.
  destruct (unswap_extent a b) as [HD _]. cbv zeta in HD. rewrite HD.
  unfold path. rewrite map_map.
  replace (Z.to_nat (extent a b + 1)) with (Z.to_nat (extent a b) + 1)%nat
    by (unfold extent; lia).
  apply map_ext. intros k. unfold goto_point. now rewrite HD.
Qed.





(** ** A press while the stored sample still carries a location *)





(** * The pollers: claims *)

(** C10.  Each poller reports contact exactly when it returns a position:
    the touch screen poller reports contact exactly when there is a touch
    point, the cursor poller returns a position exactly when the button is
    held; so neither can return contact without a position. *)
Theorem pollers_contact_iff_position :
  (forall ts : TouchscreenPoller,
     (fst (poll ts) = true <-> snd (poll ts) <> None) /\
     (fst (poll ts) = true <-> touch_point ts <> None)) /\
  (forall cp : CursorPoller,
     (fst (poll cp) = true <-> snd (poll cp) <> None) /\
     (snd (poll cp) <> None <-> held cp = true)) /\
  (forall ts : TouchscreenPoller, poll ts <> (true, None)) /\
  (forall cp : CursorPoller, poll cp <> (true, None)).
Proof.
  split; [|split; [|split]].
  - intros [[tp|]]; cbn; split; split; intros H; try reflexivity;
      try discriminate; try congruence.
  - intros [[] x y xo yo]; cbn; split; split; intros H; try reflexivity;
      try discriminate; try congruence.
  - intros [[tp|]]; cbn; discriminate.
  - intros [[] x y xo yo]; cbn; discriminate.
Qed.

(** * Further properties of the line rasterizer *)

(** Bounds on the secondary steps of the closed form. *)
Lemma ysteps_bounds D d k :
  0 <= d <= D -> 0 <= k <= D ->
  0 <= ysteps D d k <= d /\
  - D <= 2 * (D * ysteps D d k - k * d) <= D /\
  (k = 0 -> ysteps D d k = 0) /\
  (k = D -> ysteps D d k = d).
Proof.
  intros Hd Hk. unfold ysteps.
  destruct (Z.eq_dec D 0) as [->|HD].
  - assert (d = 0) as -> by lia. assert (k = 0) as -> by lia.
    change (2 * 0) with 0. rewrite Z.div_0_r. lia.
  - pose proof (Z.div_mod (2 * k * d + D - 1) (2 * D) ltac:(lia)) as Hdm.
    pose proof (Z.mod_pos_bound (2 * k * d + D - 1) (2 * D) ltac:(lia)) as Hr.
    set (m := (2 * k * d + D - 1) / (2 * D)) in *.
    set (r := (2 * k * d + D - 1) mod (2 * D)) in *.
    assert (Hm0 : 0 <= m) by nia.
    assert (Hmd : m <= d) by nia.
    repeat split; try lia; try nia.
Qed.

Lemma goto_point_geometry (a b : pos) (k : nat) :
  Z.of_nat k <= extent a b ->
  let px := goto_point a b k in
  (Z.min (fst a) (fst b) <= fst px <= Z.max (fst a) (fst b)) /\
  (Z.min (snd a) (snd b) <= snd px <= Z.max (snd a) (snd b)) /\
  2 * Z.abs ((fst b - fst a) * (snd px - snd a) - (snd b - snd a) * (fst px - fst a))
    <= extent a b /\
  (k = 0%nat -> px = a) /\
  (Z.of_nat k = extent a b -> px = b).
Proof.
  destruct a as [x0 y0], b as [x1 y1]. unfold extent, goto_point, is_steep.
  cbn [fst snd]. intros Hk.
  destruct (Z.gtb_spec (Z.abs (y1 - y0)) (Z.abs (x1 - x0))) as [Hs|Hs];
    cbn [unswap fst snd]; unfold primary.
  - pose proof (ysteps_bounds (Z.abs (y1 - y0)) (Z.abs (x1 - x0)) (Z.of_nat k)
                  ltac:(lia) ltac:(lia)) as (Hm & Hdev & H0 & HD).
    set (m := ysteps (Z.abs (y1 - y0)) (Z.abs (x1 - x0)) (Z.of_nat k)) in *.
    destruct (Z.gtb_spec y0 y1), (Z.ltb_spec x0 x1);
      [ rewrite (Z.abs_neq (y1 - y0)), (Z.abs_eq (x1 - x0)) in * by lia
      | rewrite (Z.abs_neq (y1 - y0)), (Z.abs_neq (x1 - x0)) in * by lia
      | rewrite (Z.abs_eq (y1 - y0)), (Z.abs_eq (x1 - x0)) in * by lia
      | rewrite (Z.abs_eq (y1 - y0)), (Z.abs_neq (x1 - x0)) in * by lia ];
      (repeat split; try lia; try nia;
       [ intros ->; f_equal; lia
       | intros Hend; specialize (HD ltac:(lia)); f_equal; lia ]).
  - pose proof (ysteps_bounds (Z.abs (x1 - x0)) (Z.abs (y1 - y0)) (Z.of_nat k)
                  ltac:(lia) ltac:(lia)) as (Hm & Hdev & H0 & HD).
    set (m := ysteps (Z.abs (x1 - x0)) (Z.abs (y1 - y0)) (Z.of_nat k)) in *.
    destruct (Z.gtb_spec x0 x1), (Z.ltb_spec y0 y1);
      [ rewrite (Z.abs_neq (x1 - x0)), (Z.abs_eq (y1 - y0)) in * by lia
      | rewrite (Z.abs_neq (x1 - x0)), (Z.abs_neq (y1 - y0)) in * by lia
      | rewrite (Z.abs_eq (x1 - x0)), (Z.abs_eq (y1 - y0)) in * by lia
      | rewrite (Z.abs_eq (x1 - x0)), (Z.abs_neq (y1 - y0)) in * by lia ];
      (repeat split; try lia; try nia;
       [ intros ->; f_equal; lia
       | intros Hend; specialize (HD ltac:(lia)); f_equal; lia ]).
Qed.

Lemma goto_pixels_lookup (a b : pos) (i : nat) (px : pos) :
  goto_pixels a b !! i = Some px <->
  px = goto_point a b i /\ Z.of_nat i <= extent a b.
Proof.
  rewrite goto_pixels_points.
  change (map (goto_point a b) ?l) with (goto_point a b <$> l).
  rewrite list_lookup_fmap. split.
  - intros H. destruct (seq 0 (Z.to_nat (extent a b) + 1) !! i) as [j|] eqn:Hj;
      [|discriminate].
    apply lookup_seq in Hj. destruct Hj as [-> Hlt]. cbn in H. injection H as <-.
    split; [reflexivity|]. unfold extent in *. lia.
  - intros [-> Hle].
    rewrite (proj2 (lookup_seq 0 (Z.to_nat (extent a b) + 1) i i)); [reflexivity|].
    split; [reflexivity|]. unfold extent in *. lia.
Qed.

Lemma goto_pixels_ends (a b : pos) :
  head (goto_pixels a b) = Some a /\ last (goto_pixels a b) = Some b.
Proof.
  split.
  - rewrite head_lookup. apply goto_pixels_lookup. split; [|unfold extent; lia].
    symmetry. now apply (goto_point_geometry a b 0 ltac:(unfold extent; lia)).
  - rewrite last_lookup, goto_pixels_length.
    replace (Init.Nat.pred (Z.to_nat (extent a b) + 1)) with (Z.to_nat (extent a b)) by lia.
    apply goto_pixels_lookup. split; [|unfold extent; lia].
    symmetry.
    apply (goto_point_geometry a b (Z.to_nat (extent a b)) ltac:(unfold extent; lia)).
    unfold extent. lia.
Qed.

(** X1.  The first pixel of a segment shorter than [2 ^ 52] is its start
    point and the last one its end point. *)
Theorem goto_endpoints (fuel : nat) (a b : pos) (p : Paint) :
  (goto_fuel a b <= fuel)%nat -> exact_range a b ->
  head (pixels (fst (_goto fuel (Some a) (Some b) p))) = Some a /\
  last (pixels (fst (_goto fuel (Some a) (Some b) p))) = Some b.
Proof.
  intros Hfuel Hex. rewrite (pixels_goto fuel a b p Hfuel Hex).
  apply goto_pixels_ends.
Qed.

Lemma goto_endpoints_witness :
  (goto_fuel (7, 2)%Z (1, 5)%Z <= 8)%nat /\
  exact_range (7, 2) (1, 5) /\
  last (pixels (fst (_goto 8 (Some (7, 2)) (Some (1, 5)) (Paint_init 320 240)))) =
    Some (1, 5).
Proof.
  assert (H : (goto_fuel (7, 2)%Z (1, 5)%Z <= 8)%nat) by (vm_compute; lia).
  assert (Hex : exact_range (7, 2) (1, 5)) by (vm_compute; reflexivity).
  split; [exact H|]. split; [exact Hex|].
  apply (goto_endpoints 8 (7, 2) (1, 5) (Paint_init 320 240) H Hex).
Defined.

(** X2.  Consecutive pixels of a segment are neighbours: they differ by at
    most one in each coordinate and are not equal, so a stroke has no
    gaps. *)
Theorem goto_connected (fuel : nat) (a b : pos) (p : Paint) (i : nat) (px qx : pos) :
  (goto_fuel a b <= fuel)%nat ->
  pixels (fst (_goto fuel (Some a) (Some b) p)) !! i = Some px ->
  pixels (fst (_goto fuel (Some a) (Some b) p)) !! S i = Some qx ->
  Z.max (Z.abs (fst qx - fst px)) (Z.abs (snd qx - snd px)) = 1.
Proof.
  intros _. rewrite pixels_goto_outcome. unfold goto_outcome. cbn [fst].
  change (map (unswap ?s) ?l) with (unswap s <$> l). rewrite !list_lookup_fmap.
  destruct (fst (seg_outcome fuel _ _) !! i) as [px'|] eqn:Hp; [|discriminate].
  destruct (fst (seg_outcome fuel _ _) !! S i) as [qx'|] eqn:Hq; [|discriminate].
  cbn [fmap option_fmap option_map]. intros [= <-] [= <-].
  destruct (seg_outcome_adjacent _ _ _ _ _ _ Hp Hq) as [H1 H2].
  destruct (is_steep a b); cbn [unswap fst snd]; lia.
Qed.

Lemma goto_connected_witness :
  (goto_fuel (0, 0)%Z (5, 2)%Z <= 7)%nat /\
  pixels (fst (_goto 7 (Some (0, 0)) (Some (5, 2)) (Paint_init 320 240))) !! 1%nat
    = Some (1, 0) /\
  pixels (fst (_goto 7 (Some (0, 0)) (Some (5, 2)) (Paint_init 320 240))) !! 2%nat
    = Some (2, 1) /\
  Z.max (Z.abs (fst (2, 1) - fst (1, 0))) (Z.abs (snd (2, 1) - snd (1, 0))) = 1.
Proof.
  assert (H : (goto_fuel (0, 0)%Z (5, 2)%Z <= 7)%nat) by (vm_compute; lia).
  assert (H1 : pixels (fst (_goto 7 (Some (0, 0)) (Some (5, 2)) (Paint_init 320 240)))
                 !! 1%nat = Some (1, 0)) by (vm_compute; reflexivity).
  assert (H2 : pixels (fst (_goto 7 (Some (0, 0)) (Some (5, 2)) (Paint_init 320 240)))
                 !! 2%nat = Some (2, 1)) by (vm_compute; reflexivity).
  split; [exact H|]. split; [exact H1|]. split; [exact H2|].
  exact (goto_connected 7 (0, 0) (5, 2) (Paint_init 320 240) 1 (1, 0) (2, 1) H H1 H2).
Defined.

(** X3.  Every pixel of a segment shorter than [2 ^ 52] lies within half a
    pixel of the ideal line through the endpoints, measured along the minor
    axis: twice the cross product of the segment with the offset of the
    pixel is at most the length of the dominant axis. *)
Theorem goto_close_to_line (fuel : nat) (a b px : pos) (p : Paint) :
  (goto_fuel a b <= fuel)%nat -> exact_range a b ->
  In px (pixels (fst (_goto fuel (Some a) (Some b) p))) ->
  2 * Z.abs ((fst b - fst a) * (snd px - snd a) - (snd b - snd a) * (fst px - fst a))
    <= Z.max (Z.abs (fst b - fst a)) (Z.abs (snd b - snd a)).
Proof.
  intros Hfuel Hex. rewrite (pixels_goto fuel a b p Hfuel Hex), goto_pixels_points.
  intros Hin. apply in_map_iff in Hin. destruct Hin as [k [<- Hk]].
  apply in_seq in Hk.
  apply (goto_point_geometry a b k). unfold extent in *. lia.
Qed.

Lemma goto_close_to_line_witness :
  (goto_fuel (0, 0)%Z (5, 2)%Z <= 7)%nat /\
  exact_range (0, 0) (5, 2) /\
  In (3, 1) (pixels (fst (_goto 7 (Some (0, 0)) (Some (5, 2)) (Paint_init 320 240)))) /\
  2 * Z.abs ((fst (5, 2) - fst (0, 0)) * (snd (3, 1) - snd (0, 0))
             - (snd (5, 2) - snd (0, 0)) * (fst (3, 1) - fst (0, 0)))
    <= Z.max (Z.abs (fst (5, 2) - fst (0, 0))) (Z.abs (snd (5, 2) - snd (0, 0))).
Proof.
  assert (H : (goto_fuel (0, 0)%Z (5, 2)%Z <= 7)%nat) by (vm_compute; lia).
  assert (H1 : In (3, 1) (pixels (fst (_goto 7 (Some (0, 0)) (Some (5, 2))
                                        (Paint_init 320 240)))))
    by (vm_compute; tauto).
  assert (Hex : exact_range (0, 0) (5, 2)) by (vm_compute; reflexivity).
  split; [exact H|]. split; [exact Hex|]. split; [exact H1|].
  exact (goto_close_to_line 7 (0, 0) (5, 2) (3, 1) (Paint_init 320 240) H Hex H1).
Defined.

(** X4.  Every pixel of a segment shorter than [2 ^ 52] lies in the
    bounding box of its endpoints; so a horizontal segment stays in its row
    and a vertical one in its column. *)
Theorem goto_bounding_box (fuel : nat) (a b px : pos) (p : Paint) :
  (goto_fuel a b <= fuel)%nat -> exact_range a b ->
  In px (pixels (fst (_goto fuel (Some a) (Some b) p))) ->
  (Z.min (fst a) (fst b) <= fst px <= Z.max (fst a) (fst b)) /\
  (Z.min (snd a) (snd b) <= snd px <= Z.max (snd a) (snd b)) /\
  (snd a = snd b -> snd px = snd a) /\
  (fst a = fst b -> fst px = fst a).
Proof.
  intros Hfuel Hex. rewrite (pixels_goto fuel a b p Hfuel Hex), goto_pixels_points.
  intros Hin. apply in_map_iff in Hin. destruct Hin as [k [<- Hk]].
  apply in_seq in Hk.
  destruct (goto_point_geometry a b k ltac:(unfold extent in *; lia))
    as (Hx & Hy & _).
  repeat split; lia.
Qed.

Lemma goto_bounding_box_witness :
  (goto_fuel (4, 9)%Z (4, 3)%Z <= 8)%nat /\
  exact_range (4, 9) (4, 3) /\
  In (4, 6) (pixels (fst (_goto 8 (Some (4, 9)) (Some (4, 3)) (Paint_init 320 240)))) /\
  fst (4, 6) = fst (4, 9).
Proof.
  assert (H : (goto_fuel (4, 9)%Z (4, 3)%Z <= 8)%nat) by (vm_compute; lia).
  assert (H1 : In (4, 6) (pixels (fst (_goto 8 (Some (4, 9)) (Some (4, 3))
                                        (Paint_init 320 240)))))
    by (vm_compute; tauto).
  assert (Hex : exact_range (4, 9) (4, 3)) by (vm_compute; reflexivity).
  split; [exact H|]. split; [exact Hex|]. split; [exact H1|].
  apply (goto_bounding_box 8 (4, 9) (4, 3) (4, 6) (Paint_init 320 240) H Hex H1).
  reflexivity.
Defined.

(** * Further properties of the pixel writes *)

Lemma paint_px_fields c p px :
  _w (paint_px c p px) = _w p /\ _h (paint_px c p px) = _h p /\
  _last_pressed (paint_px c p px) = _last_pressed p /\
  _last_location (paint_px c p px) = _last_location p /\
  _x (paint_px c p px) = fst px /\ _y (paint_px c p px) = snd px.
Proof.
  unfold paint_px, plot_state. cbn [set_xy _w _h _last_pressed _last_location _x _y].
  now destruct (Bitmap_setitem _ _ _ _).
Qed.

Lemma fold_paint_px_fields (c : Z) (l : list pos) :
  forall p : Paint,
    let q := fold_left (paint_px c) l p in
    _w q = _w p /\ _h q = _h p /\
    _last_pressed q = _last_pressed p /\
    _last_location q = _last_location p /\
    forall px, last l = Some px -> _x q = fst px /\ _y q = snd px.
Proof.
  induction l as [|qx l IH]; intros p; cbn [fold_left].
  - split; [|split; [|split; [|split]]]; try reflexivity.
    intros px Hl. discriminate.
  - destruct (IH (paint_px c p qx)) as (Hw & Hh & Hlp & Hll & Hxy).
    destruct (paint_px_fields c p qx) as (Hw1 & Hh1 & Hlp1 & Hll1 & Hx1 & Hy1).
    split; [|split; [|split; [|split]]]; try congruence.
    intros px Hl. destruct l as [|rx l]; [|apply (Hxy px); exact Hl].
    cbn in Hl. injection Hl as <-. split; assumption.
Qed.

Lemma Bitmap_eq (b1 b2 : Bitmap) :
  width b1 = width b2 -> height b1 = height b2 -> cells b1 = cells b2 -> b1 = b2.
Proof. destruct b1, b2. cbn. now intros -> -> ->. Qed.

(** X5.  On a segment shorter than [2 ^ 52], [_goto] returns normally,
    leaves the turtle position [_x], [_y] on the end point and changes
    nothing else but the bitmap cells: the input state, the pen colour and
    all dimensions are as before. *)
Theorem goto_final_state (fuel : nat) (a b : pos) (p : Paint) :
  (goto_fuel a b <= fuel)%nat -> exact_range a b ->
  exists q,
    snd (_goto fuel (Some a) (Some b) p) = Ok tt q /\
    _x q = fst b /\ _y q = snd b /\
    _pressed q = _pressed p /\ _last_pressed q = _last_pressed p /\
    _location q = _location p /\ _last_location q = _last_location p /\
    _pencolor q = _pencolor p /\ _w q = _w p /\ _h q = _h p /\
    width (_fg_bitmap q) = width (_fg_bitmap p) /\
    height (_fg_bitmap q) = height (_fg_bitmap p).
Proof.
  intros Hfuel Hex. rewrite (_goto_run fuel a b p Hfuel Hex). cbn [snd].
  eexists. split; [reflexivity|].
  destruct (fold_paint_px (_pencolor p) (goto_pixels a b) p)
    as (Hw & Hh & Hpr & Hloc & _).
  destruct (fold_paint_px_fields (_pencolor p) (goto_pixels a b) p)
    as (Hw' & Hh' & Hlp & Hll & Hxy).
  pose proof (fold_paint_px_pencolor (_pencolor p) (goto_pixels a b) p) as Hpc.
  assert (Hlast : last (goto_pixels a b) = Some b) by apply goto_pixels_ends.
  destruct (Hxy b Hlast) as [Hx Hy].
  repeat split; assumption.
Qed.

Lemma goto_final_state_witness :
  (goto_fuel (2, 3)%Z (9, 6)%Z <= 9)%nat /\
  exact_range (2, 3) (9, 6) /\
  exists q,
    snd (_goto 9 (Some (2, 3)) (Some (9, 6)) (Paint_init 320 240)) = Ok tt q /\
    _x q = 9 /\ _y q = 6.
Proof.
  assert (H : (goto_fuel (2, 3)%Z (9, 6)%Z <= 9)%nat) by (vm_compute; lia).
  assert (Hex : exact_range (2, 3) (9, 6)) by (vm_compute; reflexivity).
  split; [exact H|]. split; [exact Hex|].
  destruct (goto_final_state 9 (2, 3) (9, 6) (Paint_init 320 240) H Hex)
    as (q & Hq & Hx & Hy & _).
  exists q. repeat split; assumption.
Defined.

(** X6.  A pixel write inside the bitmap stores the colour in that cell,
    which reads back, and touches no other cell and no other field; writing
    the same pixel again changes nothing. *)
Theorem plot_in_bounds (x y c : Z) (p : Paint) :
  0 <= x < width (_fg_bitmap p) -> 0 <= y < height (_fg_bitmap p) ->
  exists q,
    _plot x y c p = ([SetPixel x y c], Ok tt q) /\
    Bitmap_getitem (_fg_bitmap q) x y = c /\
    (forall k : pos, k <> (x, y) ->
       cells (_fg_bitmap q) !! k = cells (_fg_bitmap p) !! k) /\
    q = set_fg_bitmap (_fg_bitmap q) p /\
    width (_fg_bitmap q) = width (_fg_bitmap p) /\
    height (_fg_bitmap q) = height (_fg_bitmap p) /\
    _plot x y c q = ([SetPixel x y c], Ok tt q).
Proof.
  intros Hx Hy.
  assert (Hin : in_bounds (_fg_bitmap p) x y = true).
  { unfold in_bounds.
    rewrite (proj2 (Z.leb_le 0 x)), (proj2 (Z.ltb_lt x _)),
      (proj2 (Z.leb_le 0 y)), (proj2 (Z.ltb_lt y _)) by lia. reflexivity. }
  exists (plot_state x y c p). rewrite !_plot_run.
  assert (Hbm : _fg_bitmap (plot_state x y c p) =
            mkBitmap (width (_fg_bitmap p)) (height (_fg_bitmap p))
              (<[(x, y) := c]> (cells (_fg_bitmap p))))
    by (rewrite plot_state_bitmap, Hin; reflexivity).
  split; [reflexivity|].
  split; [|split; [|split; [|split; [|split]]]].
  - rewrite Hbm. unfold Bitmap_getitem. cbn [cells]. now rewrite lookup_insert_eq.
  - intros k Hk. rewrite Hbm. cbn [cells]. now apply lookup_insert_ne.
  - unfold plot_state, Bitmap_setitem. rewrite Hin. reflexivity.
  - now rewrite Hbm.
  - now rewrite Hbm.
  - f_equal. f_equal.
    unfold plot_state at 1. unfold Bitmap_setitem.
    rewrite (in_bounds_dims (_fg_bitmap p)) by (now rewrite Hbm).
    rewrite Hin. rewrite Hbm at 1 2 3. cbn [width height cells].
    rewrite insert_insert_eq.
    unfold plot_state, Bitmap_setitem. rewrite Hin. reflexivity.
Qed.

Lemma plot_in_bounds_witness :
  0 <= 5 < width (_fg_bitmap (Paint_init 320 240)) /\
  0 <= 6 < height (_fg_bitmap (Paint_init 320 240)) /\
  exists q, _plot 5 6 3 (Paint_init 320 240) = ([SetPixel 5 6 3], Ok tt q) /\
            Bitmap_getitem (_fg_bitmap q) 5 6 = 3.
Proof.
  assert (H1 : 0 <= 5 < width (_fg_bitmap (Paint_init 320 240))) by (cbn; lia).
  assert (H2 : 0 <= 6 < height (_fg_bitmap (Paint_init 320 240))) by (cbn; lia).
  split; [exact H1|]. split; [exact H2|].
  destruct (plot_in_bounds 5 6 3 (Paint_init 320 240) H1 H2) as (q & Hq & Hget & _).
  exists q. split; assumption.
Defined.

(** X7.  Drawing a segment shorter than [2 ^ 52] a second time leaves the
    bitmap as it is, and such a segment without a tie gives the same bitmap
    whichever endpoint it is drawn from. *)
Theorem goto_redraw (fuel : nat) (a b : pos) (p : Paint) :
  (goto_fuel a b <= fuel)%nat -> exact_range a b ->
  exists q,
    snd (_goto fuel (Some a) (Some b) p) = Ok tt q /\
    (exists q', snd (_goto fuel (Some a) (Some b) q) = Ok tt q' /\
                _fg_bitmap q' = _fg_bitmap q) /\
    (tie_free a b = true ->
     exists r, snd (_goto fuel (Some b) (Some a) p) = Ok tt r /\
               _fg_bitmap r = _fg_bitmap q).
Proof.
  intros Hfuel Hex.
  assert (Hfuel' : (goto_fuel b a <= fuel)%nat) by now rewrite goto_fuel_sym.
  assert (Hex' : exact_range b a) by now apply exact_range_sym.
  rewrite (_goto_run fuel a b p Hfuel Hex). cbn [snd]. eexists. split; [reflexivity|].
  destruct (fold_paint_px (_pencolor p) (goto_pixels a b) p)
    as (Hw & Hh & _ & _ & Hcells).
  pose proof (fold_paint_px_pencolor (_pencolor p) (goto_pixels a b) p) as Hpc.
  remember (fold_left (paint_px (_pencolor p)) (goto_pixels a b) p) as q eqn:Hq.
  clear Hq. split.
  - rewrite (_goto_run fuel a b q Hfuel Hex). cbn [snd]. eexists. split; [reflexivity|].
    destruct (fold_paint_px (_pencolor q) (goto_pixels a b) q)
      as (Hw2 & Hh2 & _ & _ & Hcells2).
    apply Bitmap_eq; [exact Hw2 | exact Hh2 |].
    apply map_eq. intros k. rewrite Hcells2, Hpc.
    rewrite (in_bounds_dims (_fg_bitmap p) (_fg_bitmap q)) by assumption.
    rewrite Hcells.
    now destruct (bool_decide (k ∈ goto_pixels a b) && in_bounds (_fg_bitmap p) k.1 k.2).
  - intros Hfree. rewrite (_goto_run fuel b a p Hfuel' Hex'). cbn [snd].
    eexists. split; [reflexivity|].
    destruct (fold_paint_px (_pencolor p) (goto_pixels b a) p)
      as (Hw2 & Hh2 & _ & _ & Hcells2).
    apply Bitmap_eq; [congruence | congruence |].
    apply map_eq. intros k. rewrite Hcells2, Hcells.
    assert (Hmem : bool_decide (k ∈ goto_pixels b a) = bool_decide (k ∈ goto_pixels a b)).
    { apply bool_decide_ext. rewrite (goto_pixels_reverse a b Hfree).
      rewrite !list_elem_of_In. symmetry. apply in_rev. }
    now rewrite Hmem.
Qed.

Lemma goto_redraw_witness :
  (goto_fuel (0, 0)%Z (5, 2)%Z <= 7)%nat /\
  exact_range (0, 0) (5, 2) /\
  exists q r,
    snd (_goto 7 (Some (0, 0)) (Some (5, 2)) (Paint_init 320 240)) = Ok tt q /\
    snd (_goto 7 (Some (5, 2)) (Some (0, 0)) (Paint_init 320 240)) = Ok tt r /\
    _fg_bitmap r = _fg_bitmap q.
Proof.
  assert (H : (goto_fuel (0, 0)%Z (5, 2)%Z <= 7)%nat) by (vm_compute; lia).
  assert (Hex : exact_range (0, 0) (5, 2)) by (vm_compute; reflexivity).
  split; [exact H|]. split; [exact Hex|].
  destruct (goto_redraw 7 (0, 0) (5, 2) (Paint_init 320 240) H Hex)
    as (q & Hq & _ & Hrev).
  destruct (Hrev eq_refl) as (r & Hr & Heq).
  exists q, r. repeat split; assumption.
Defined.

(** * Invariants of the control loop *)

Section Preserves.
Variable R : Paint -> Paint -> Prop.
Variable E : Paint -> event -> Prop.
Hypothesis R_refl : forall p, R p p.
Hypothesis R_trans : forall p q r, R p q -> R q r -> R p r.
Hypothesis E_stable : forall p q e, R p q -> E q e -> E p e.

Lemma pa_ret {A} (a : A) p : preserves_at R E (ret a) p.
Proof. split; [constructor | apply R_refl]. Qed.

Lemma pa_get {A} (g : Paint -> A) p : preserves_at R E (get g) p.
Proof. split; [constructor | apply R_refl]. Qed.

Lemma pa_raise {A} (e : exn) p : preserves_at R E (raise (A := A) e) p.
Proof. split; [constructor | apply R_refl]. Qed.

Lemma pa_out_of_fuel {A} p : preserves_at R E (out_of_fuel (A := A)) p.
Proof. split; [constructor | exact I]. Qed.

Lemma pa_emit (e : event) p : E p e -> preserves_at R E (emit e) p.
Proof. intros He. split; [now repeat constructor | apply R_refl]. Qed.

Lemma pa_modify (f : Paint -> Paint) p : R p (f p) -> preserves_at R E (modify f) p.
Proof. intros Hf. split; [constructor | exact Hf]. Qed.

Lemma pa_bind {A B} (m : M A) (f : A -> M B) p :
  preserves_at R E m p ->
  (forall a q, snd (m p) = Ok a q -> preserves_at R E (f a) q) ->
  preserves_at R E (bind m f) p.
Proof.
  unfold preserves_at, bind. destruct (m p) as [t [a q|e q|]]; cbn [fst snd].
  - intros [Ht HR] Hf. specialize (Hf a q eq_refl).
    destruct (f a q) as [t' r]. cbn [fst snd] in *. destruct Hf as [Ht' HR'].
    split.
    + apply Forall_app. split; [exact Ht|].
      eapply Forall_impl; [exact Ht'|]. intros e. now apply E_stable.
    + destruct r as [b q'|e q'|]; try exact I; eapply R_trans; eassumption.
  - intros [Ht HR] _. now split.
  - intros [Ht _] _. now split.
Qed.

Lemma pa_try_pass (e : exn) (m : M unit) p :
  preserves_at R E m p -> preserves_at R E (try_pass e m) p.
Proof.
  unfold preserves_at, try_pass. destruct (m p) as [t [a q|e' q|]]; cbn [fst snd];
    try tauto.
  intros [Ht HR]. now destruct e, e'.
Qed.
End Preserves.

Lemma preserves_at_weaken {A} (R R' : Paint -> Paint -> Prop) E (m : M A) p :
  (forall q, R p q -> R' p q) -> preserves_at R E m p -> preserves_at R' E m p.
Proof.
  unfold preserves_at. intros HRR [Ht HR]. split; [exact Ht|].
  destruct (snd (m p)); auto.
Qed.

Lemma frame_refl p : frame p p.
Proof. unfold frame. repeat split; try reflexivity. now left. Qed.

Lemma frame_trans p q r : frame p q -> frame q r -> frame p r.
Proof.
  unfold frame. intros (Hc & Hw & Hh & Hbw & Hbh & Hk) (Hc' & Hw' & Hh' & Hbw' & Hbh' & Hk').
  repeat split; try congruence. intros k.
  destruct (Hk' k) as [Heq|[Hin Heq]].
  - rewrite Heq. apply Hk.
  - right. rewrite (in_bounds_dims (_fg_bitmap p) (_fg_bitmap q)) in Hin by assumption.
    split; [exact Hin|]. now rewrite Heq, Hc.
Qed.

Lemma same_input_refl p : same_input p p.
Proof. unfold same_input. tauto. Qed.

Lemma same_input_trans p q r : same_input p q -> same_input q r -> same_input p r.
Proof. unfold same_input. intuition congruence. Qed.

Lemma frame_input_refl p : frame_input p p.
Proof. split; [apply frame_refl | apply same_input_refl]. Qed.

Lemma frame_input_trans p q r : frame_input p q -> frame_input q r -> frame_input p r.
Proof.
  intros [H1 H2] [H3 H4]. split; [eapply frame_trans | eapply same_input_trans]; eassumption.
Qed.

Lemma pen_only_frame p q e : frame p q -> pen_only q e -> pen_only p e.
Proof. intros (Hc & _) He. destruct e; cbn in *; congruence. Qed.

Lemma pen_only_frame_input p q e : frame_input p q -> pen_only q e -> pen_only p e.
Proof. intros [H _]. now apply pen_only_frame. Qed.

Lemma frame_input_plot_state x y p :
  frame_input p (plot_state x y (_pencolor p) p).
Proof.
  split.
  - unfold frame. rewrite plot_state_pencolor, plot_state_bitmap.
    assert (Hwh : _w (plot_state x y (_pencolor p) p) = _w p /\
                  _h (plot_state x y (_pencolor p) p) = _h p)
      by (unfold plot_state; now destruct (Bitmap_setitem _ _ _ _)).
    destruct Hwh as [Hw Hh].
    destruct (in_bounds (_fg_bitmap p) x y) eqn:Hin; cbn [width height cells];
      repeat split; try assumption; try reflexivity; intros k.
    + destruct (decide (k = (x, y))) as [->|Hne].
      * right. cbn [fst snd]. split; [exact Hin | apply lookup_insert_eq].
      * left. now apply lookup_insert_ne.
    + now left.
  - unfold same_input. destruct (plot_state_input x y (_pencolor p) p) as (? & ? & ? & ?).
    tauto.
Qed.

Lemma frame_input_set_xy x y p : frame_input p (set_xy x y p).
Proof.
  split; [|unfold same_input; cbn; tauto].
  unfold frame. cbn [set_xy _pencolor _w _h _fg_bitmap].
  repeat split; try reflexivity. now left.
Qed.

Lemma pa_plot x y p :
  preserves_at frame_input pen_only (_plot x y (_pencolor p)) p.
Proof.
  unfold preserves_at. rewrite _plot_run. cbn [fst snd]. split.
  - repeat constructor.
  - apply frame_input_plot_state.
Qed.

Lemma pa_loop_body steep x0 y0 p :
  preserves_at frame_input pen_only (loop_body steep x0 y0) p.
Proof.
  unfold preserves_at. rewrite loop_body_run. cbn [fst snd]. split.
  - unfold px_events. repeat constructor.
  - unfold paint_px. eapply frame_input_trans;
      [apply frame_input_plot_state | apply frame_input_set_xy].
Qed.

Lemma pa_lift {A} (r : exn + A) p : preserves_at frame_input pen_only (lift r) p.
Proof.
  destruct r; cbn [lift]; first [apply pa_ret | apply pa_raise];
    apply frame_input_refl.
Qed.

Ltac pa_step :=
  apply pa_bind;
    [apply frame_input_trans | apply pen_only_frame_input | | intros ? ? ?].

Lemma pa_float_op (op : float -> float -> float) (a : float) (z : Z) p :
  preserves_at frame_input pen_only
    (b <- lift (float_of_int z) ;; ret (op a b)) p.
Proof.
  pa_step; [apply pa_lift|]. apply pa_ret, frame_input_refl.
Qed.

Lemma pa_goto_loop fuel :
  forall (steep rev : bool) (dx dy ystep x1 x0 y0 : Z) (err : float) (p : Paint),
    preserves_at frame_input pen_only
      (_goto_loop fuel steep rev dx dy ystep x1 x0 y0 err) p.
Proof.
  induction fuel as [|fuel IH]; intros; cbn [_goto_loop].
  - apply pa_out_of_fuel.
  - destruct ((negb rev && (x0 <=? x1)) || (rev && (x1 <=? x0))).
    + fold (loop_body steep x0 y0).
      pa_step; [apply pa_loop_body|].
      pa_step; [apply (pa_float_op float_sub)|].
      pa_step; [|apply IH].
      destruct (float_lt_0 _).
      * pa_step; [apply (pa_float_op float_add)|]. apply pa_ret, frame_input_refl.
      * apply pa_ret, frame_input_refl.
    + apply pa_ret, frame_input_refl.
Qed.

Lemma pa_getitem (t : option pos) (i : nat) p :
  preserves_at frame_input pen_only (getitem t i) p.
Proof.
  destruct t as [[x y]|]; [destruct i as [|[|i]]|]; cbn [getitem];
    first [apply pa_ret | apply pa_raise]; apply frame_input_refl.
Qed.

Lemma pa_goto fuel (s e : option pos) p :
  preserves_at frame_input pen_only (_goto fuel s e) p.
Proof.
  unfold _goto.
  pa_step; [apply pa_getitem|].
  pa_step; [apply pa_getitem|].
  pa_step; [apply pa_getitem|].
  pa_step; [apply pa_getitem|].
  pa_step; [apply pa_emit; [apply frame_input_refl | exact I]|].
  destruct (Z.abs (_ - _) >? Z.abs (_ - _));
    match goal with |- context [if ?c then (true, _) else _] => destruct c end;
    (pa_step; [apply pa_lift | apply pa_goto_loop]).
Qed.

Lemma pa_handle_motion fuel (s e : option pos) p :
  preserves_at frame_input pen_only (_handle_motion fuel s e) p.
Proof.
  unfold _handle_motion.
  pa_step; [apply pa_emit; [apply frame_input_refl | exact I]|].
  pa_step; [apply pa_getitem|].
  pa_step; [apply pa_getitem|].
  pa_step; [apply pa_getitem|].
  pa_step; [apply pa_getitem|].
  pa_step; [apply pa_emit; [apply frame_input_refl | exact I]|].
  apply pa_goto.
Qed.

Lemma pa_handle_press (l : option pos) p :
  preserves_at frame_input pen_only (_handle_press l) p.
Proof.
  unfold _handle_press.
  pa_step; [apply pa_emit; [apply frame_input_refl | exact I]|].
  pa_step; [apply pa_emit; [apply frame_input_refl | exact I]|].
  pa_step; [apply pa_getitem|].
  pa_step; [apply pa_getitem|].
  pa_step; [apply pa_get, frame_input_refl|].
  match goal with H : snd (get _ _) = Ok _ _ |- _ => cbn in H; injection H as <- <- end.
  pa_step; [apply pa_plot|].
  apply pa_emit; [apply frame_input_refl | exact I].
Qed.

Lemma pa_handle_release (l : option pos) p :
  preserves_at frame_input pen_only (_handle_release l) p.
Proof.
  unfold _handle_release.
  pa_step; [apply pa_emit; [apply frame_input_refl | exact I]|].
  apply pa_emit; [apply frame_input_refl | exact I].
Qed.

(** The part of a tick after [_update]. *)
Lemma pa_tick_handlers fuel p :
  preserves_at frame_input pen_only
    (p <- get id ;;
     (if _was_just_pressed p then _handle_press (_location p)
      else if _was_just_released p then _handle_release (_location p)
      else ret tt) ;;
     p <- get id ;;
     (if _did_move p && _pressed p
      then _handle_motion fuel (_last_location p) (_location p)
      else ret tt) ;;
     emit (Sleep 100)) p.
Proof.
  pa_step; [apply pa_get, frame_input_refl|].
  pa_step.
  { destruct (_was_just_pressed a); [apply pa_handle_press|].
    destruct (_was_just_released a);
      [apply pa_handle_release | apply pa_ret, frame_input_refl]. }
  pa_step; [apply pa_get, frame_input_refl|].
  pa_step.
  { destruct (_did_move a1 && _pressed a1);
      [apply pa_handle_motion | apply pa_ret, frame_input_refl]. }
  apply pa_emit; [apply frame_input_refl | exact I].
Qed.

Lemma frame_set_input pr lpr loc lloc p : frame p (set_input pr lpr loc lloc p).
Proof.
  unfold frame. cbn [set_input _pencolor _w _h _fg_bitmap].
  repeat split; try reflexivity. now left.
Qed.

Lemma pa_tick fuel (polled : Sample) p :
  preserves_at frame pen_only (tick fuel polled) p.
Proof.
  unfold tick.
  apply pa_bind; [apply frame_trans | apply pen_only_frame | |].
  - unfold preserves_at. rewrite _update_run. cbn [fst snd]. split.
    + repeat constructor.
    + apply frame_set_input.
  - intros _ q _. eapply preserves_at_weaken; [|apply pa_tick_handlers].
    intros r [Hr _]. exact Hr.
Qed.

Lemma pa_run fuel (polls : list Sample) :
  forall p, preserves_at frame pen_only (run fuel polls) p.
Proof.
  induction polls as [|s polls IH]; intros p; cbn [run].
  - apply pa_ret, frame_refl.
  - apply pa_bind; [apply frame_trans | apply pen_only_frame | apply pa_tick |].
    intros _ q _. apply IH.
Qed.

(** X8.  Whatever the polled samples are and however a run ends, it has
    only ever written the pen colour; the pen colour and the dimensions are
    unchanged; and every cell either keeps its value or lies inside the
    bitmap and holds the pen colour -- cells outside the bitmap are never
    created. *)
Theorem run_writes_pen_colour_only (fuel : nat) (polls : list Sample) (p : Paint) :
  (forall x y c, In (SetPixel x y c) (fst (run fuel polls p)) -> c = _pencolor p) /\
  match snd (run fuel polls p) with
  | Ok _ q | Exc _ q =>
      _pencolor q = _pencolor p /\ _w q = _w p /\ _h q = _h p /\
      width (_fg_bitmap q) = width (_fg_bitmap p) /\
      height (_fg_bitmap q) = height (_fg_bitmap p) /\
      (forall k : pos,
         cells (_fg_bitmap q) !! k = cells (_fg_bitmap p) !! k \/
         cells (_fg_bitmap q) !! k = Some (_pencolor p)) /\
      (forall k : pos,
         in_bounds (_fg_bitmap p) (fst k) (snd k) = false ->
         cells (_fg_bitmap q) !! k = cells (_fg_bitmap p) !! k)
  | OutOfFuel => True
  end.
Proof.
  destruct (pa_run fuel polls p) as [Ht HR]. split.
  - intros x y c Hin. rewrite Forall_forall in Ht.
    apply (Ht (SetPixel x y c)). now apply list_elem_of_In.
  - destruct (snd (run fuel polls p)) as [u q|e q|]; [| |exact I];
      destruct HR as (Hc & Hw & Hh & Hbw & Hbh & Hk);
      (repeat split; try assumption;
       [ intros k; destruct (Hk k) as [H|[_ H]]; [now left | now right]
       | intros k Hout; destruct (Hk k) as [H|[Hin _]]; [exact H | congruence] ]).
Qed.

Lemma tick_input_fields (fuel : nat) (polled : Sample) (p : Paint) :
  match snd (tick fuel polled p) with
  | Ok _ q | Exc _ q =>
      _pressed q = fst polled /\ _location q = snd polled /\
      _last_pressed q = _pressed p /\ _last_location q = _location p
  | OutOfFuel => True
  end.
Proof.
  unfold tick. rewrite snd_bind, _update_run. cbn [snd].
  destruct (pa_tick_handlers fuel
              (set_input (fst polled) (_pressed p) (snd polled) (_location p) p))
    as [_ HR].
  match goal with
  | |- match snd ?t with _ => _ end => destruct (snd t) as [u q|e q|]
  end; [| |exact I];
    destruct HR as [_ (H1 & H2 & H3 & H4)];
    rewrite H1, H2, H3, H4; repeat split; reflexivity.
Qed.

(** X9.  After a tick that completes or raises, the stored sample is the
    one just polled and the stored previous sample is the one that was
    stored before: no handler touches the four input fields. *)
Theorem tick_shifts_samples (fuel : nat) (polled : Sample) (p : Paint) :
  match snd (tick fuel polled p) with
  | Ok _ q | Exc _ q =>
      _pressed q = fst polled /\ _location q = snd polled /\
      _last_pressed q = _pressed p /\ _last_location q = _location p
  | OutOfFuel => True
  end.
Proof. apply tick_input_fields. Qed.

Lemma tick_ok (fuel : nat) (polled : Sample) (p : Paint) :
  (fst polled = true -> snd polled <> None) ->
  (forall a b, _location p = Some a -> snd polled = Some b ->
               (goto_fuel a b <= fuel)%nat /\ exact_range a b) ->
  exists q, snd (tick fuel polled p) = Ok tt q.
Proof.
  intros Hwf Hfuel. destruct polled as [c l]. cbn [fst snd] in *. unfold tick.
  rewrite snd_bind, _update_run. cbn [fst snd].
  set (p1 := set_input c (_pressed p) l (_location p) p).
  rewrite snd_bind. cbn [get snd id]. rewrite snd_bind.
  assert (H1 : exists p2,
             snd ((if _was_just_pressed p1 then _handle_press (_location p1)
                   else if _was_just_released p1 then _handle_release (_location p1)
                   else ret tt) p1) = Ok tt p2 /\ same_input p1 p2).
  { unfold _was_just_pressed, _was_just_released.
    change (_pressed p1) with c. change (_last_pressed p1) with (_pressed p).
    change (_location p1) with l.
    destruct c, (_pressed p); cbn [andb negb].
    - exists p1. split; [reflexivity | apply same_input_refl].
    - destruct l as [a|]; [|now destruct (Hwf eq_refl)].
      rewrite _handle_press_run. cbn [snd]. eexists. split; [reflexivity|].
      apply frame_input_plot_state.
    - exists p1. split; [reflexivity | apply same_input_refl].
    - exists p1. split; [reflexivity | apply same_input_refl]. }
  destruct H1 as (p2 & -> & Hsame).
  rewrite snd_bind. cbn [get snd id]. rewrite snd_bind.
  assert (H2 : exists p3,
             snd ((if _did_move p2 && _pressed p2
                   then _handle_motion fuel (_last_location p2) (_location p2)
                   else ret tt) p2) = Ok tt p3).
  { destruct (_did_move p2 && _pressed p2) eqn:Hmv; [|eexists; reflexivity].
    apply andb_prop in Hmv. destruct Hmv as [Hmv _]. unfold _did_move in Hmv.
    destruct Hsame as (_ & _ & Hl & Hll). rewrite Hl, Hll in *.
    change (_location p1) with l in *.
    change (_last_location p1) with (_location p) in *.
    destruct l as [b|]; [|discriminate].
    destruct (_location p) as [a|] eqn:Hloc; [|discriminate].
    destruct (Hfuel a b eq_refl eq_refl) as [Hf Hex].
    rewrite (_handle_motion_run fuel a b p2 Hf Hex). eexists. reflexivity. }
  destruct H2 as (p3 & ->). eexists. reflexivity.
Qed.

Lemma run_ok (fuel : nat) (polls : list Sample) (p : Paint) :
  (forall s, In s polls -> fst s = true -> snd s <> None) ->
  (run_fuel (_location p) polls <= fuel)%nat ->
  run_exact (_location p) polls ->
  exists q, snd (run fuel polls p) = Ok tt q.
Proof.
  revert p. induction polls as [|s polls IH]; intros p Hwf Hfuel Hexact; cbn [run].
  - eexists. reflexivity.
  - cbn [run_fuel] in Hfuel. cbn [run_exact] in Hexact.
    destruct Hexact as [Hex Hexact].
    destruct (tick_ok fuel s p) as (q & Hq).
    + intros Hc. apply Hwf; [now left | exact Hc].
    + intros a b Ha Hb. rewrite Ha, Hb in Hfuel, Hex. split; [lia | exact Hex].
    + pose proof (tick_input_fields fuel s p) as Hshift. rewrite Hq in Hshift.
      destruct Hshift as (_ & Hloc & _).
      rewrite snd_bind, Hq. apply IH.
      * intros s' Hs'. apply Hwf. now right.
      * rewrite Hloc. lia.
      * now rewrite Hloc.
Qed.

(** X10.  A run over samples in which contact always comes with a position,
    and consecutive positions are less than [2 ^ 52] apart, never raises:
    with enough loop iterations allowed for the longest segment, it
    completes normally. *)
Theorem run_never_raises (fuel : nat) (polls : list Sample) (p : Paint) :
  (forall s, In s polls -> fst s = true -> snd s <> None) ->
  (run_fuel (_location p) polls <= fuel)%nat ->
  run_exact (_location p) polls ->
  exists q, snd (run fuel polls p) = Ok tt q.
Proof. apply run_ok. Qed.

Lemma run_never_raises_witness :
  (forall s, In s [(true, Some (3, 3)); (true, Some (9, 5)); (false, None)] ->
             fst s = true -> snd s <> None) /\
  (run_fuel (_location (Paint_init 320 240))
     [(true, Some (3, 3)); (true, Some (9, 5)); (false, None)]%Z <= 8)%nat /\
  run_exact (_location (Paint_init 320 240))
    [(true, Some (3, 3)); (true, Some (9, 5)); (false, None)] /\
  exists q,
    snd (run 8 [(true, Some (3, 3)); (true, Some (9, 5)); (false, None)]
           (Paint_init 320 240)) = Ok tt q.
Proof.
  assert (H1 : forall s : Sample,
             In s [(true, Some (3, 3)); (true, Some (9, 5)); (false, None)] ->
             fst s = true -> snd s <> None).
  { intros s [<-|[<-|[<-|[]]]]; cbn; congruence. }
  assert (H2 : (run_fuel (_location (Paint_init 320 240))
                  [(true, Some (3, 3)); (true, Some (9, 5)); (false, None)]%Z <= 8)%nat)
    by (vm_compute; lia).
  assert (H3 : run_exact (_location (Paint_init 320 240))
                 [(true, Some (3, 3)); (true, Some (9, 5)); (false, None)])
    by (vm_compute; repeat split).
  split; [exact H1|]. split; [exact H2|]. split; [exact H3|].
  exact (run_never_raises 8 _ (Paint_init 320 240) H1 H2 H3).
Defined.

Lemma tick_no_contact (fuel : nat) (l : option pos) (p : Paint) :
  tick fuel (false, l) p =
    (Debug "Update: %s->%s, %s->%s"
       [VBool (_pressed p); VBool false; VLoc (_location p); VLoc l]
       :: (if _pressed p then [HandleRelease l; Debug "Released!" []] else [])
       ++ [Sleep 100],
     Ok tt (set_input false (_pressed p) l (_location p) p)).
Proof.
  destruct (_pressed p) eqn:Hpr.
  - rewrite (tick_release fuel l p Hpr). reflexivity.
  - unfold tick. rewrite (bind_step _ _ _ _ _ _ (_update_run _ p)). cbn [fst snd].
    rewrite Hpr.
    set (p1 := set_input false false l (_location p) p).
    unfold bind at 1, get at 1, id.
    change (_was_just_pressed p1) with false.
    change (_was_just_released p1) with false. cbn iota.
    unfold bind at 1, ret at 1. unfold bind at 1, get at 1.
    change (_pressed p1) with false. rewrite andb_false_r. reflexivity.
Qed.

Lemma pixels_app t1 t2 : pixels (t1 ++ t2) = pixels t1 ++ pixels t2.
Proof. apply omap_app. Qed.

(** X11.  While no sample has contact nothing is drawn: the run completes,
    attempts no pixel write and leaves the bitmap as it was, whatever
    positions the samples carry. *)
Theorem run_without_contact (fuel : nat) (polls : list Sample) (p : Paint) :
  (forall s, In s polls -> fst s = false) ->
  pixels (fst (run fuel polls p)) = [] /\
  exists q, snd (run fuel polls p) = Ok tt q /\ _fg_bitmap q = _fg_bitmap p.
Proof.
  revert p. induction polls as [|[c l] polls IH]; intros p Hidle; cbn [run].
  - split; [reflexivity|]. eexists. split; reflexivity.
  - assert (c = false) as -> by (apply (Hidle (c, l)); now left).
    rewrite (bind_step _ _ _ _ _ _ (tick_no_contact fuel l p)).
    destruct (IH (set_input false (_pressed p) l (_location p) p)) as (Hpx & q & Hq & Hbm).
    { intros s Hs. apply Hidle. now right. }
    destruct (run fuel polls (set_input false (_pressed p) l (_location p) p))
      as [t r] eqn:Hrun.
    cbn [fst snd] in *. split.
    + rewrite pixels_app, Hpx. now destruct (_pressed p).
    + exists q. split; [exact Hq|]. now rewrite Hbm.
Qed.

Lemma run_without_contact_witness :
  (forall s, In s [(false, None); (false, Some (4, 4)); (false, Some (7, 1))] ->
             fst s = false) /\
  pixels (fst (run 0 [(false, None); (false, Some (4, 4)); (false, Some (7, 1))]
                 (Paint_init 320 240))) = [].
Proof.
  assert (H : forall s : Sample,
            In s [(false, None); (false, Some (4, 4)); (false, Some (7, 1))] ->
            fst s = false).
  { intros s [<-|[<-|[<-|[]]]]; reflexivity. }
  split; [exact H|].
  apply (run_without_contact 0 _ (Paint_init 320 240) H).
Defined.

(** * The cursor bitmap and the palettes *)

Lemma for_range_succ {S : Type} (n : nat) (body : Z -> S -> exn + S) (s : S) :
  for_range (Z.of_nat (Datatypes.S n)) body s =
    match for_range (Z.of_nat n) body s with
    | inr s' => body (Z.of_nat n) s'
    | inl e => inl e
    end.
Proof.
  unfold for_range. rewrite !Nat2Z.id, seq_S, map_app, fold_left_app. reflexivity.
Qed.

(** A loop that writes two pixels per iteration, all inside the bitmap. *)
Lemma for_range_two_writes (f1 f2 : Z -> pos) (v : Z)
    (body : Z -> Bitmap -> exn + Bitmap) (b : Bitmap) (n : nat) :
  (forall i bmp, width bmp = width b -> height bmp = height b ->
     body i bmp =
       match Bitmap_setitem bmp (fst (f1 i)) (snd (f1 i)) v with
       | inr bmp' => Bitmap_setitem bmp' (fst (f2 i)) (snd (f2 i)) v
       | inl e => inl e
       end) ->
  (forall i, 0 <= i < Z.of_nat n ->
     in_bounds b (fst (f1 i)) (snd (f1 i)) = true /\
     in_bounds b (fst (f2 i)) (snd (f2 i)) = true) ->
  exists b',
    for_range (Z.of_nat n) body b = inr b' /\
    width b' = width b /\ height b' = height b /\
    (forall k, (exists i, 0 <= i < Z.of_nat n /\ (k = f1 i \/ k = f2 i)) ->
               cells b' !! k = Some v) /\
    (forall k, ~ (exists i, 0 <= i < Z.of_nat n /\ (k = f1 i \/ k = f2 i)) ->
               cells b' !! k = cells b !! k).
Proof.
  intros Hbody Hin. induction n as [|n IH].
  - exists b. repeat split; try reflexivity.
    intros k [i [Hi _]]. lia.
  - destruct IH as (b1 & Hrun & Hw & Hh & Hhit & Hmiss).
    { intros i Hi. apply Hin. lia. }
    rewrite for_range_succ, Hrun, (Hbody _ b1 Hw Hh).
    destruct (Hin (Z.of_nat n) ltac:(lia)) as [Hin1 Hin2].
    unfold Bitmap_setitem.
    rewrite (in_bounds_dims b b1) by assumption. rewrite Hin1.
    rewrite (in_bounds_dims b) by (cbn [width height]; assumption). rewrite Hin2.
    eexists. split; [reflexivity|]. cbn [width height cells].
    split; [exact Hw|]. split; [exact Hh|]. split.
    + intros k [i [Hi Hk]].
      destruct (decide (k = (fst (f2 (Z.of_nat n)), snd (f2 (Z.of_nat n))))) as [->|Hne2];
        [apply lookup_insert_eq|].
      rewrite lookup_insert_ne by congruence.
      destruct (decide (k = (fst (f1 (Z.of_nat n)), snd (f1 (Z.of_nat n))))) as [->|Hne1];
        [apply lookup_insert_eq|].
      rewrite lookup_insert_ne by congruence.
      apply Hhit. exists i. split; [|exact Hk].
      destruct (Z.eq_dec i (Z.of_nat n)) as [->|Hi']; [|lia].
      exfalso. destruct Hk as [->| ->].
      * apply Hne1. now destruct (f1 (Z.of_nat n)).
      * apply Hne2. now destruct (f2 (Z.of_nat n)).
    + intros k Hk.
      rewrite !lookup_insert_ne.
      * apply Hmiss. intros [i [Hi Hki]]. apply Hk. exists i. split; [lia|exact Hki].
      * intros Heq. apply Hk. exists (Z.of_nat n). split; [lia|]. left.
        rewrite <- Heq. now destruct (f1 (Z.of_nat n)).
      * intros Heq. apply Hk. exists (Z.of_nat n). split; [lia|]. right.
        rewrite <- Heq. now destruct (f2 (Z.of_nat n)).
Qed.

Lemma Bitmap_setitem_dims b x y v b' :
  Bitmap_setitem b x y v = inr b' -> width b' = width b /\ height b' = height b.
Proof.
  unfold Bitmap_setitem. destruct (in_bounds b x y); [|discriminate].
  intros H. injection H as <-. split; reflexivity.
Qed.

Lemma _cursor_bitmap_run :
  exists b,
    _cursor_bitmap = inr b /\ width b = 20 /\ height b = 20 /\
    forall x y,
      cells b !! (x, y) =
        if ((x =? 0) || (x =? 19) || (y =? 0) || (y =? 19)) && in_bounds b x y
        then Some 1 else None.
Proof.
  unfold _cursor_bitmap. cbv zeta.
  change (height (Bitmap_new 20 20)) with (Z.of_nat 20).
  edestruct (for_range_two_writes (fun i => (0, i)) (fun i => (19, i)) 1)
    with (b := Bitmap_new 20 20) (n := 20%nat)
    as (b1 & Hrun1 & Hw1 & Hh1 & Hhit1 & Hmiss1); [| |rewrite Hrun1].
  { intros i bmp Hw Hh. cbn [fst snd].
    destruct (Bitmap_setitem bmp 0 i 1) as [e|bmp'] eqn:Hset; [reflexivity|].
    apply Bitmap_setitem_dims in Hset. destruct Hset as [Hw' _].
    rewrite Hw', Hw. reflexivity. }
  { intros i Hi. cbn [fst snd]. unfold in_bounds. cbn [Bitmap_new width height].
    rewrite (proj2 (Z.leb_le 0 i)), (proj2 (Z.ltb_lt i 20)) by lia. now split. }
  cbn [Bitmap_new width height] in Hw1, Hh1.
  rewrite Hw1. change 20 with (Z.of_nat 20) at 1.
  edestruct (for_range_two_writes (fun i => (i, 0)) (fun i => (i, 19)) 1)
    with (b := b1) (n := 20%nat)
    as (b2 & Hrun2 & Hw2 & Hh2 & Hhit2 & Hmiss2); [| |rewrite Hrun2].
  { intros i bmp Hw Hh. cbn [fst snd].
    destruct (Bitmap_setitem bmp i 0 1) as [e|bmp'] eqn:Hset; [reflexivity|].
    apply Bitmap_setitem_dims in Hset. destruct Hset as [_ Hh'].
    rewrite Hh', Hh, Hh1. reflexivity. }
  { intros i Hi. cbn [fst snd]. unfold in_bounds. rewrite Hw1, Hh1.
    rewrite (proj2 (Z.leb_le 0 i)), (proj2 (Z.ltb_lt i 20)) by lia. now split. }
  exists b2. split; [reflexivity|]. split; [congruence|]. split; [congruence|].
  intros x y. unfold in_bounds. rewrite Hw2, Hh2, Hw1, Hh1.
  destruct (decide (0 <= x < 20 /\ (y = 0 \/ y = 19))) as [Hrow|Hrow].
  - rewrite (Hhit2 (x, y)).
    + destruct Hrow as [Hx [-> | ->]];
        rewrite (proj2 (Z.leb_le 0 x)), (proj2 (Z.ltb_lt x 20)) by lia;
        cbn [Z.eqb Pos.eqb Z.leb Z.ltb Z.compare Pos.compare Pos.compare_cont andb orb];
        now rewrite ?orb_true_r.
    + exists x. split; [lia|]. destruct Hrow as [_ [-> | ->]]; auto.
  - rewrite (Hmiss2 (x, y)).
    2:{ intros [i [Hi [Heq|Heq]]]; injection Heq as -> ->; apply Hrow; lia. }
    destruct (decide (0 <= y < 20 /\ (x = 0 \/ x = 19))) as [Hcol|Hcol].
    + rewrite (Hhit1 (x, y)).
      * destruct Hcol as [Hy [-> | ->]];
          rewrite (proj2 (Z.leb_le 0 y)), (proj2 (Z.ltb_lt y 20)) by lia;
          cbn [Z.eqb Pos.eqb Z.leb Z.ltb Z.compare Pos.compare Pos.compare_cont andb orb];
          reflexivity.
      * exists y. split; [lia|]. destruct Hcol as [_ [-> | ->]]; auto.
    + rewrite (Hmiss1 (x, y)).
      2:{ intros [i [Hi [Heq|Heq]]]; injection Heq as -> ->; apply Hcol; lia. }
      cbn [Bitmap_new cells]. rewrite lookup_empty.
      destruct (Z.eqb_spec x 0), (Z.eqb_spec x 19), (Z.eqb_spec y 0), (Z.eqb_spec y 19),
        (Z.leb_spec 0 x), (Z.ltb_spec x 20), (Z.leb_spec 0 y), (Z.ltb_spec y 20);
        cbn [orb andb]; try reflexivity; exfalso; lia.
Qed.

(** X12.  [_cursor_bitmap] raises nothing and returns a 20 x 20 bitmap in
    which exactly the cells of the outline (first and last column, first
    and last row) are 1 and all others 0. *)
Theorem cursor_bitmap_outline :
  exists b,
    _cursor_bitmap = inr b /\ width b = 20 /\ height b = 20 /\
    forall x y,
      Bitmap_getitem b x y =
        if ((x =? 0) || (x =? 19) || (y =? 0) || (y =? 19)) && in_bounds b x y
        then 1 else 0.
Proof.
  destruct _cursor_bitmap_run as (b & Hb & Hw & Hh & Hcells).
  exists b. repeat split; try assumption.
  intros x y. unfold Bitmap_getitem. rewrite Hcells.
  now destruct (((x =? 0) || (x =? 19) || (y =? 0) || (y =? 19)) && in_bounds b x y).
Qed.

(** X13.  A cursor poller built by [__init__] has both offsets equal to 10,
    half the size of its cursor bitmap, so while the button is held it
    reports the centre of the 20 x 20 cursor outline, and no position
    otherwise. *)
Theorem cursor_poller_reports_centre (cursor_held : bool) (cursor_x cursor_y : Z) :
  exists cp,
    CursorPoller___init__ cursor_held cursor_x cursor_y = inr cp /\
    _x_offset cp = 10 /\ _y_offset cp = 10 /\
    poll cp =
      (cursor_held,
       if cursor_held then Some (cursor_x + 10, cursor_y + 10) else None).
Proof.
  unfold CursorPoller___init__.
  destruct _cursor_bitmap_run as (b & -> & Hw & Hh & _).
  eexists. split; [reflexivity|]. cbn [_x_offset _y_offset]. rewrite Hw, Hh.
  split; [reflexivity|]. split; [reflexivity|].
  cbn [poll CursorPoller_Poller]. unfold CursorPoller_poll.
  cbn [held mouse_cursor_x mouse_cursor_y _x_offset _y_offset].
  now destruct cursor_held.
Qed.

Lemma fill_palette_from (cs : list Z) :
  forall pre : list Z,
    fold_left
      (fun acc ic => match acc with
                     | inr pal => Palette_setitem pal (fst ic) (snd ic)
                     | inl e => inl e
                     end)
      (combine (seq (length pre) (length cs)) cs)
      (inr (pre ++ repeat 0 (length cs)))
    = inr (pre ++ cs).
Proof.
  induction cs as [|c cs IH]; intros pre; cbn [length seq combine fold_left repeat].
  - reflexivity.
  - cbn [fst snd]. unfold Palette_setitem.
    destruct (Nat.ltb_spec (length pre) (length (pre ++ 0 :: repeat 0 (length cs))))
      as [Hlt|Hge]; [|rewrite length_app in Hge; cbn [length] in Hge; lia].
    replace (<[length pre := c]> (pre ++ 0 :: repeat 0 (length cs)))
      with ((pre ++ [c]) ++ repeat 0 (length cs)).
    + replace (S (length pre)) with (length (pre ++ [c]))
        by (rewrite length_app; cbn [length]; lia).
      rewrite IH, <- app_assoc. reflexivity.
    + rewrite <- app_assoc. cbn [app].
      rewrite insert_app_r_alt by lia. rewrite Nat.sub_diag. reflexivity.
Qed.

(** X14.  Filling a palette from a colour list raises nothing and yields
    exactly that list, for any list; so both palettes of [__init__] hold the
    eight colours of [Color.colors] in order, and the initial pen colour 7
    is a valid index, the one of white. *)
Theorem palette_holds_colors (w h : Z) :
  (forall cs : list Z, fill_palette cs = inr cs) /\
  fill_palette colors = inr colors /\
  length colors = 8%nat /\
  0 <= _pencolor (Paint_init w h) < Z.of_nat (length colors) /\
  colors !! Z.to_nat (_pencolor (Paint_init w h)) = Some 0xFFFFFF.
Proof.
  assert (H : forall cs : list Z, fill_palette cs = inr cs).
  { intros cs. unfold fill_palette, Palette_new.
    exact (fill_palette_from cs []). }
  split; [exact H|]. split; [apply H|]. split; [reflexivity|].
  split; [cbn; lia | reflexivity].
Qed.

(** * The pollers in the control loop, and its pace *)

(** X15.  Driven by either in-tree poller, [run] never raises as long as
    the consecutive positions that the hardware reports are less than
    [2 ^ 52] apart: it completes once enough loop iterations are allowed for
    the longest segment. *)
Theorem run_with_pollers_never_raises (fuel : nat) (p : Paint) :
  (forall readings : list TouchscreenPoller,
     (run_fuel (_location p) (map poll readings) <= fuel)%nat ->
     run_exact (_location p) (map poll readings) ->
     exists q, snd (run_with fuel readings p) = Ok tt q) /\
  (forall readings : list CursorPoller,
     (run_fuel (_location p) (map poll readings) <= fuel)%nat ->
     run_exact (_location p) (map poll readings) ->
     exists q, snd (run_with fuel readings p) = Ok tt q).
Proof.
  split; intros readings Hfuel Hexact; unfold run_with; apply run_ok;
    try exact Hfuel; try exact Hexact;
    intros s Hs; apply in_map_iff in Hs; destruct Hs as [r [<- _]].
  - destruct r as [[tp|]]; cbn; congruence.
  - destruct r as [[] x y xo yo]; cbn; congruence.
Qed.

Lemma run_with_pollers_never_raises_witness :
  (run_fuel (_location (Paint_init 320 240))
     (map poll [{| touch_point := Some (3, 4)%Z |}; {| touch_point := Some (6, 5)%Z |};
                {| touch_point := None |}]) <= 6)%nat /\
  run_exact (_location (Paint_init 320 240))
    (map poll [{| touch_point := Some (3, 4) |}; {| touch_point := Some (6, 5) |};
               {| touch_point := None |}]) /\
  exists q,
    snd (run_with 6 [{| touch_point := Some (3, 4)%Z |}; {| touch_point := Some (6, 5)%Z |};
                     {| touch_point := None |}] (Paint_init 320 240)) = Ok tt q.
Proof.
  assert (H : (run_fuel (_location (Paint_init 320 240))
     (map poll [{| touch_point := Some (3, 4)%Z |}; {| touch_point := Some (6, 5)%Z |};
                {| touch_point := None |}]) <= 6)%nat) by (vm_compute; lia).
  assert (Hex : run_exact (_location (Paint_init 320 240))
    (map poll [{| touch_point := Some (3, 4) |}; {| touch_point := Some (6, 5) |};
               {| touch_point := None |}])) by (vm_compute; repeat split).
  split; [exact H|]. split; [exact Hex|].
  exact (proj1 (run_with_pollers_never_raises 6 (Paint_init 320 240)) _ H Hex).
Defined.





(** * Symmetries of the line rasterizer *)

(** X17.  The rasterizer commutes with translations: moving both endpoints
    by the same offset moves every pixel by that offset, so the shape of a
    segment does not depend on where it is on the screen. *)
Theorem goto_translation (fuel : nat) (t a b : pos) (p q : Paint) :
  (goto_fuel a b <= fuel)%nat ->
  pixels (fst (_goto fuel (Some (translate t a)) (Some (translate t b)) q)) =
    map (translate t) (pixels (fst (_goto fuel (Some a) (Some b) p))).
Proof.
  intros _. rewrite !pixels_goto_outcome, goto_outcome_translate. reflexivity.
Qed.

Lemma goto_translation_witness :
  (goto_fuel (0, 0)%Z (5, 2)%Z <= 7)%nat /\
  pixels (fst (_goto 7 (Some (translate (100, 50) (0, 0)))
                 (Some (translate (100, 50) (5, 2))) (Paint_init 320 240))) =
    map (translate (100, 50))
      (pixels (fst (_goto 7 (Some (0, 0)) (Some (5, 2)) (Paint_init 320 240)))).
Proof.
  assert (H : (goto_fuel (0, 0)%Z (5, 2)%Z <= 7)%nat) by (vm_compute; lia).
  split; [exact H|].
  apply (goto_translation 7 (100, 50) (0, 0) (5, 2) (Paint_init 320 240)
           (Paint_init 320 240) H).
Defined.

(** X18.  The rasterizer commutes with the mirror images and the
    transposition of the grid: the pixels of a mirrored or transposed
    segment are the mirrored or transposed pixels, in the same order. *)
Theorem goto_symmetries (fuel : nat) (a b : pos) (p q : Paint) :
  (goto_fuel a b <= fuel)%nat ->
  pixels (fst (_goto fuel (Some (mirror_x a)) (Some (mirror_x b)) q)) =
    map mirror_x (pixels (fst (_goto fuel (Some a) (Some b) p))) /\
  pixels (fst (_goto fuel (Some (mirror_y a)) (Some (mirror_y b)) q)) =
    map mirror_y (pixels (fst (_goto fuel (Some a) (Some b) p))) /\
  pixels (fst (_goto fuel (Some (transpose a)) (Some (transpose b)) q)) =
    map transpose (pixels (fst (_goto fuel (Some a) (Some b) p))).
Proof.
  intros _. rewrite !pixels_goto_outcome.
  rewrite goto_outcome_mirror_x, goto_outcome_mirror_y, goto_outcome_transpose.
  repeat split.
Qed.

Lemma goto_symmetries_witness :
  (goto_fuel (0, 0)%Z (2, 5)%Z <= 7)%nat /\
  pixels (fst (_goto 7 (Some (transpose (0, 0))) (Some (transpose (2, 5)))
                 (Paint_init 320 240))) =
    map transpose (pixels (fst (_goto 7 (Some (0, 0)) (Some (2, 5)) (Paint_init 320 240)))).
Proof.
  assert (H : (goto_fuel (0, 0)%Z (2, 5)%Z <= 7)%nat) by (vm_compute; lia).
  split; [exact H|].
  apply (goto_symmetries 7 (0, 0) (2, 5) (Paint_init 320 240) (Paint_init 320 240) H).
Defined.

(** * Whole strokes *)





(** * Segments off the bitmap *)

Lemma goto_pixels_box (a b px : pos) :
  px ∈ goto_pixels a b ->
  (Z.min (fst a) (fst b) <= fst px <= Z.max (fst a) (fst b)) /\
  (Z.min (snd a) (snd b) <= snd px <= Z.max (snd a) (snd b)).
Proof.
  intros Hin. apply list_elem_of_In in Hin. rewrite goto_pixels_points in Hin.
  apply in_map_iff in Hin. destruct Hin as [k [<- Hk]]. apply in_seq in Hk.
  destruct (goto_point_geometry a b k ltac:(unfold extent in *; lia))
    as (Hx & Hy & _).
  split; assumption.
Qed.

(** X20.  A segment shorter than [2 ^ 52] whose bounding box misses the
    bitmap on one side -- both endpoints left of it, right of it, above it
    or below it -- is walked to its end without an error and leaves the
    bitmap exactly as it was. *)
Theorem goto_off_bitmap (fuel : nat) (a b : pos) (p : Paint) :
  (goto_fuel a b <= fuel)%nat -> exact_range a b ->
  Z.max (fst a) (fst b) < 0 \/
  width (_fg_bitmap p) <= Z.min (fst a) (fst b) \/
  Z.max (snd a) (snd b) < 0 \/
  height (_fg_bitmap p) <= Z.min (snd a) (snd b) ->
  exists q,
    snd (_goto fuel (Some a) (Some b) p) = Ok tt q /\
    _fg_bitmap q = _fg_bitmap p /\
    (_x q, _y q) = b.
Proof.
  intros Hfuel Hex Hout. rewrite (_goto_run fuel a b p Hfuel Hex). cbn [snd].
  eexists. split; [reflexivity|].
  destruct (fold_paint_px (_pencolor p) (goto_pixels a b) p)
    as (Hw & Hh & _ & _ & Hcells).
  split.
  - apply Bitmap_eq; [exact Hw | exact Hh |]. apply map_eq. intros k.
    rewrite Hcells.
    destruct (bool_decide_reflect (k ∈ goto_pixels a b)) as [Hin|Hin];
      [|reflexivity].
    apply goto_pixels_box in Hin. destruct Hin as [Hx Hy].
    assert (Hb : in_bounds (_fg_bitmap p) k.1 k.2 = false).
    { unfold in_bounds.
      destruct (Z.leb_spec 0 k.1), (Z.ltb_spec k.1 (width (_fg_bitmap p))),
        (Z.leb_spec 0 k.2), (Z.ltb_spec k.2 (height (_fg_bitmap p)));
        cbn [andb]; try reflexivity. exfalso. lia. }
    now rewrite Hb.
  - destruct (goto_pixels_ends a b) as [_ Hlast].
    apply last_Some in Hlast. destruct Hlast as [l' Hl']. rewrite Hl'.
    rewrite fold_left_app. cbn [fold_left].
    destruct (paint_px_fields (_pencolor p)
                (fold_left (paint_px (_pencolor p)) l' p) b)
      as (_ & _ & _ & _ & Hx & Hy).
    rewrite Hx, Hy. now destruct b.
Qed.

Lemma goto_off_bitmap_witness :
  (goto_fuel (-5, 3)%Z (-1, 40)%Z <= 40)%nat /\
  exact_range (-5, 3) (-1, 40) /\
  (Z.max (fst (-5, 3)) (fst (-1, 40)) < 0 \/
   width (_fg_bitmap (Paint_init 320 240)) <= Z.min (fst (-5, 3)) (fst (-1, 40)) \/
   Z.max (snd (-5, 3)) (snd (-1, 40)) < 0 \/
   height (_fg_bitmap (Paint_init 320 240)) <= Z.min (snd (-5, 3)) (snd (-1, 40))) /\
  exists q,
    snd (_goto 40 (Some (-5, 3)) (Some (-1, 40)) (Paint_init 320 240)) = Ok tt q /\
    _fg_bitmap q = _fg_bitmap (Paint_init 320 240) /\
    (_x q, _y q) = (-1, 40).
Proof.
  assert (H1 : (goto_fuel (-5, 3)%Z (-1, 40)%Z <= 40)%nat) by (vm_compute; lia).
  assert (H2 : Z.max (fst (-5, 3)) (fst (-1, 40)) < 0 \/
   width (_fg_bitmap (Paint_init 320 240)) <= Z.min (fst (-5, 3)) (fst (-1, 40)) \/
   Z.max (snd (-5, 3)) (snd (-1, 40)) < 0 \/
   height (_fg_bitmap (Paint_init 320 240)) <= Z.min (snd (-5, 3)) (snd (-1, 40)))
    by (left; reflexivity).
  assert (H3 : exact_range (-5, 3) (-1, 40)) by (vm_compute; reflexivity).
  split; [exact H1|]. split; [exact H3|]. split; [exact H2|].
  exact (goto_off_bitmap 40 (-5, 3) (-1, 40) (Paint_init 320 240) H1 H3 H2).
Defined.

(** * The handlers of a whole run *)

(** X21.  Over a run whose samples never have contact without a position
    and whose consecutive positions are less than [2 ^ 52] apart, the
    handlers entered are, in order, exactly those that each sample gives
    against the sample before it (the stored state for the first one): no
    handler call is lost or added between the ticks. *)
Theorem run_handler_calls (fuel : nat) (polls : list Sample) (p : Paint) :
  (forall s, In s polls -> fst s = true -> snd s <> None) ->
  (run_fuel (_location p) polls <= fuel)%nat ->
  run_exact (_location p) polls ->
  handler_calls (fst (run fuel polls p)) =
    classify_run (_pressed p, _location p) polls.
Proof.
  revert p. induction polls as [|s polls IH]; intros p Hwf Hfuel Hexact;
    cbn [run classify_run].
  - reflexivity.
  - cbn [run_fuel] in Hfuel. cbn [run_exact] in Hexact.
    destruct Hexact as [Hex Hexact].
    rewrite fst_bind, handler_calls_app, handler_calls_tick. f_equal.
    destruct (tick_ok fuel s p) as (q & Hq).
    + intros Hc. apply Hwf; [now left | exact Hc].
    + intros a b Ha Hb. rewrite Ha, Hb in Hfuel, Hex. split; [lia | exact Hex].
    + pose proof (tick_input_fields fuel s p) as Hshift. rewrite Hq in Hshift.
      destruct Hshift as (Hpr & Hloc & _). rewrite Hq.
      rewrite IH.
      * rewrite Hpr, Hloc. now destruct s.
      * intros s' Hs'. apply Hwf. now right.
      * rewrite Hloc. lia.
      * now rewrite Hloc.
Qed.

Lemma run_handler_calls_witness :
  (forall s, In s (stroke_polls (1, 1)%Z [(1, 1); (4, 2)]%Z) ->
             fst s = true -> snd s <> None) /\
  (run_fuel (_location (Paint_init 320 240))
     (stroke_polls (1, 1)%Z [(1, 1); (4, 2)]%Z) <= 5)%nat /\
  run_exact (_location (Paint_init 320 240)) (stroke_polls (1, 1) [(1, 1); (4, 2)]) /\
  handler_calls
    (fst (run 5 (stroke_polls (1, 1)%Z [(1, 1); (4, 2)]%Z) (Paint_init 320 240))) =
    [HandlePress (Some (1, 1)); HandleMotion (Some (1, 1)) (Some (4, 2));
     HandleRelease None].
Proof.
  assert (H1 : forall s, In s (stroke_polls (1, 1)%Z [(1, 1); (4, 2)]%Z) ->
                         fst s = true -> snd s <> None).
  { intros s Hs Hc. cbn in Hs.
    destruct Hs as [<-|[<-|[<-|[<-|[]]]]]; cbn in *; congruence. }
  assert (H2 : (run_fuel (_location (Paint_init 320 240))
                  (stroke_polls (1, 1)%Z [(1, 1); (4, 2)]%Z) <= 5)%nat)
    by (vm_compute; lia).
  assert (H3 : run_exact (_location (Paint_init 320 240))
                 (stroke_polls (1, 1) [(1, 1); (4, 2)]))
    by (vm_compute; repeat split).
  split; [exact H1|]. split; [exact H2|]. split; [exact H3|].
  rewrite (run_handler_calls 5 _ (Paint_init 320 240) H1 H2 H3). reflexivity.
Defined.
